(** * Python-to-C parser: tokenizer, tree builder, semantic check, generator

    A shallow embedding of the pipeline of [draft.cpp] (the complete menu
    program, lines 174-384): [tokenize], [parse], [checkSemantics] and
    [generateCode], together with the part of [std::regex] (ECMAScript
    grammar, backtracking matcher) that [tokenize] relies on; then of the
    first version of [generateCode] (lines 138-153), of [printTokens] and
    [printTree] and of the menu loop of [main] (lines 385-469). *)

From Stdlib Require Import Bool Arith ZArith Lia List String Ascii.
Import ListNotations.
Local Open Scope string_scope.
Local Open Scope list_scope.

Set Implicit Arguments.

(** ** Data model ([token.h], [struct Node]) *)

Inductive TokenType : Type :=
| KEYWORD | IDENTIFIER | NUMBER | STRING | OPERATOR | WHITESPACE | UNKNOWN.

Record Token : Type := mkToken { tok_type : TokenType; tok_value : string }.

#[warnings="-register-all"]
Inductive Node : Type :=
  mkNode { node_value : string; node_children : list Node }.

Definition TokenType_eqb (a b : TokenType) : bool :=
  match a, b with
  | KEYWORD, KEYWORD | IDENTIFIER, IDENTIFIER | NUMBER, NUMBER
  | STRING, STRING | OPERATOR, OPERATOR | WHITESPACE, WHITESPACE
  | UNKNOWN, UNKNOWN => true
  | _, _ => false
  end.

(** [std::string::empty]. *)
Definition empty (s : string) : bool :=
  match s with EmptyString => true | String _ _ => false end.

(** The double-quote character. *)
Definition dquote : ascii := ascii_of_nat 34.

(** ** Character classes of the "C" locale, as [std::regex_traits<char>]
    sees them *)

Module CharClass.

Definition between (lo hi : nat) (c : ascii) : bool :=
  let n := nat_of_ascii c in ((lo <=? n)%nat && (n <=? hi)%nat)%bool.

(** [[0-9]] *)
Definition is_digit (c : ascii) : bool := between 48 57 c.

(** [\w]: letters, digits and the underscore. *)
Definition is_word (c : ascii) : bool :=
  between 97 122 c || between 65 90 c || is_digit c
  || Ascii.eqb c "_"%char.

(** [\s]: space, and the controls 9 to 13 (tab, line feed, vertical tab,
    form feed, carriage return). *)
Definition is_space (c : ascii) : bool :=
  Ascii.eqb c " "%char || between 9 13 c.

(** [.] of the ECMAScript grammar: anything but a line terminator. *)
Definition is_any (c : ascii) : bool :=
  negb (Nat.eqb (nat_of_ascii c) 10 || Nat.eqb (nat_of_ascii c) 13).

(** [[^\w\s]] *)
Definition is_punct (c : ascii) : bool := negb (is_word c || is_space c).

End CharClass.

(** ** The regular expressions of [tokenize] and their matcher

    Only the constructs that occur in the patterns of [tokenize] are
    represented: literal characters, [\b], a greedy [+] and a lazy [*?]
    over a character class, concatenation and ordered alternation. *)

Module Regex.

Inductive cclass : Type := Word | Digit | Space | NotWordSpace | AnyChar.

Definition in_class (k : cclass) (c : ascii) : bool :=
  match k with
  | Word => CharClass.is_word c
  | Digit => CharClass.is_digit c
  | Space => CharClass.is_space c
  | NotWordSpace => CharClass.is_punct c
  | AnyChar => CharClass.is_any c
  end.

Inductive regex : Type :=
| Lit (c : ascii)
| WordBoundary
| Plus (k : cclass)
| LazyStar (k : cclass)
| Seq (r1 r2 : regex)
| Alt (r1 r2 : regex).

(** A position of the matcher inside the text: the characters matched so
    far, the character just before the position (none at the very start
    of the text) and the text still ahead. *)
Record mstate : Type :=
  mkState { matched : string; prev : option ascii; rest : string }.

Definition cont : Type := mstate -> option mstate.

Definition advance (m : string) (c : ascii) (s : string) : mstate :=
  mkState (m ++ String c EmptyString) (Some c) s.

(** [\b]: the characters on the two sides of the position differ in
    being word characters; outside the text counts as not a word
    character. *)
Definition word_boundary (st : mstate) : bool :=
  let left_is_word :=
    match prev st with Some c => CharClass.is_word c | None => false end in
  let right_is_word :=
    match rest st with
    | String c _ => CharClass.is_word c
    | EmptyString => false
    end in
  negb (Bool.eqb left_is_word right_is_word).

(** [k+], greedy: one character of the class, then as many more as
    possible, giving them back one by one when what follows fails. *)
Fixpoint plus_greedy (k : cclass) (kont : cont)
         (m : string) (s : string) : option mstate :=
  match s with
  | EmptyString => None
  | String c s' =>
      if in_class k c then
        match plus_greedy k kont (m ++ String c EmptyString) s' with
        | Some st => Some st
        | None => kont (advance m c s')
        end
      else None
  end.

(** [k*?], lazy: what follows is tried first, and one more character of
    the class is taken only when it fails. *)
Fixpoint star_lazy (k : cclass) (kont : cont)
         (m : string) (p : option ascii) (s : string) : option mstate :=
  match kont (mkState m p s) with
  | Some st => Some st
  | None =>
      match s with
      | EmptyString => None
      | String c s' =>
          if in_class k c
          then star_lazy k kont (m ++ String c EmptyString) (Some c) s'
          else None
      end
  end.

(** The backtracking matcher, in continuation-passing style: [exec r kont
    st] is the first way, in the priority order of the ECMAScript
    grammar, of matching [r] from [st] such that [kont] accepts the
    position reached. *)
Fixpoint exec (r : regex) (kont : cont) (st : mstate) : option mstate :=
  match r with
  | Lit c =>
      match rest st with
      | String c' s' =>
          if Ascii.eqb c c' then kont (advance (matched st) c' s') else None
      | EmptyString => None
      end
  | WordBoundary => if word_boundary st then kont st else None
  | Plus k => plus_greedy k kont (matched st) (rest st)
  | LazyStar k => star_lazy k kont (matched st) (prev st) (rest st)
  | Seq r1 r2 => exec r1 (exec r2 kont) st
  | Alt r1 r2 =>
      match exec r1 kont st with
      | Some st' => Some st'
      | None => exec r2 kont st
      end
  end.

(** Acceptance for a search: anywhere, unless [match_not_null] forbids an
    empty match. *)
Definition accept_search (not_null : bool) : cont :=
  fun st => if not_null && empty (matched st) then None else Some st.

(** Acceptance for [std::regex_match]: only at the end of the text. *)
Definition accept_all : cont :=
  fun st => if empty (rest st) then Some st else None.

(** [std::regex_match(s, r)]: the whole of [s] matches [r]. *)
Definition regex_match (s : string) (r : regex) : bool :=
  match exec r accept_all (mkState EmptyString None s) with
  | Some _ => true
  | None => false
  end.

(** A match that must start at the position given
    ([match_continuous]). *)
Definition match_here (r : regex) (not_null : bool)
           (p : option ascii) (s : string) : option mstate :=
  exec r (accept_search not_null) (mkState EmptyString p s).

(** [std::regex_search]: the match at the leftmost position that has
    one. The characters skipped on the way belong to no match. *)
Fixpoint regex_search (r : regex) (p : option ascii) (s : string)
  : option mstate :=
  match match_here r false p s with
  | Some st => Some st
  | None =>
      match s with
      | EmptyString => None
      | String c s' => regex_search r (Some c) s'
      end
  end.

(** A [std::sregex_iterator] that is not the end iterator: its current
    match, and whether its flags hold [match_prev_avail] yet. *)
Record iterator : Type := mkIter { it_match : mstate; it_prev_avail : bool }.

(** The constructor of [std::sregex_iterator]: a search from the start of
    the text; the end iterator ([None]) when it finds nothing. *)
Definition first_match (r : regex) (s : string) : option iterator :=
  match regex_search r None s with
  | Some st => Some (mkIter st false)
  | None => None
  end.

(** [std::sregex_iterator::operator++]. After an empty match the iteration
    is over at the end of the text; elsewhere a non-empty match is tried on
    the spot ([match_not_null | match_continuous]) and, failing that, the
    search resumes one character further. After a non-empty match the
    search resumes where the match ended. A resumed search sets
    [match_prev_avail]: the character before its start is visible to
    [\b]. *)
Definition next_match (r : regex) (it : iterator) : option iterator :=
  let m := it_match it in
  let resume (p : option ascii) (s : string) :=
    match regex_search r p s with
    | Some st => Some (mkIter st true)
    | None => None
    end in
  if empty (matched m) then
    match rest m with
    | EmptyString => None
    | String c s' =>
        let p := if it_prev_avail it then prev m else None in
        match match_here r true p (rest m) with
        | Some st => Some (mkIter st (it_prev_avail it))
        | None => resume (Some c) s'
        end
    end
  else resume (prev m) (rest m).

(** Literal text as a regular expression (a non-empty sequence of
    literals). *)
Fixpoint lits (c : ascii) (s : string) : regex :=
  match s with
  | EmptyString => Lit c
  | String c' s' => Seq (Lit c) (lits c' s')
  end.

End Regex.

Import Regex.

(** ** Notions about the matcher, for the proofs *)

Module RegexNotions.

(** The whole text around a position. *)
Definition text (st : mstate) : string := (matched st ++ rest st)%string.

(** A continuation that, when it accepts, has moved over the text without
    changing it and has matched at least [n] characters more. *)
Definition gains (n : nat) (kont : cont) : Prop :=
  forall st st', kont st = Some st' ->
    text st' = text st /\
    String.length (matched st) + n <= String.length (matched st').

(** A continuation that accepts every position. *)
Definition total (kont : cont) : Prop := forall st, kont st <> None.

(** The least number of characters a match of [r] takes. *)
Fixpoint min_len (r : regex) : nat :=
  match r with
  | Lit _ | Plus _ => 1
  | WordBoundary | LazyStar _ => 0
  | Seq r1 r2 => min_len r1 + min_len r2
  | Alt r1 r2 => Nat.min (min_len r1) (min_len r2)
  end.

End RegexNotions.

Import RegexNotions.

(** ** [tokenize] *)

(** [\bdef\b] and [\bprint\b] *)
Definition re_def : regex :=
  Seq WordBoundary (Seq (lits "d" "ef") WordBoundary).
Definition re_print : regex :=
  Seq WordBoundary (Seq (lits "p" "rint") WordBoundary).

(** [".*?"] *)
Definition re_string : regex :=
  Seq (Lit dquote) (Seq (LazyStar AnyChar) (Lit dquote)).

(** [(\bdef\b|\bprint\b|\w+|[0-9]+|".*?"|\s+|[^\w\s]+)] *)
Definition token_regex : regex :=
  Alt re_def
 (Alt re_print
 (Alt (Plus Word)
 (Alt (Plus Digit)
 (Alt re_string
 (Alt (Plus Space)
      (Plus NotWordSpace)))))).

(** [\bdef\b|\bprint\b] *)
Definition keyword_regex : regex := Alt re_def re_print.

(** The chain of [regex_match] tests that gives a match its type. *)
Definition classify (token_str : string) : TokenType :=
  if regex_match token_str keyword_regex then KEYWORD
  else if regex_match token_str (Plus Word) then IDENTIFIER
  else if regex_match token_str (Plus Digit) then NUMBER
  else if regex_match token_str re_string then STRING
  else if regex_match token_str (Plus Space) then WHITESPACE
  else OPERATOR.

(** The loop [for (i = tokens_begin; i != tokens_end; ++i)] on the iterator
    [i] ([None] is the end iterator). The fuel bounds the number of
    iterations; [None] is returned when it runs out. *)
Fixpoint tokenize_loop (fuel : nat) (i : option iterator)
  : option (list Token) :=
  match i with
  | None => Some []
  | Some it =>
      match fuel with
      | O => None
      | S fuel' =>
          let token_str := matched (it_match it) in
          match tokenize_loop fuel' (next_match token_regex it) with
          | Some tokens => Some (mkToken (classify token_str) token_str :: tokens)
          | None => None
          end
      end
  end.

Definition tokenize (code : string) : option (list Token) :=
  tokenize_loop (S (String.length code)) (first_match token_regex code).

(** ** [parse] *)

(** [n.children.push_back(c)] *)
Definition push_back (n c : Node) : Node :=
  mkNode (node_value n) (node_children n ++ [c]).

(** [Node{token.value, {}}] *)
Definition leaf (token : Token) : Node := mkNode (tok_value token) [].

(** A default-constructed [Node]. *)
Definition empty_node : Node := mkNode EmptyString [].

(** The body of the loop over the tokens, on the pair of [root] and
    [current]. *)
Definition parse_step (st : Node * Node) (token : Token) : Node * Node :=
  let (root, current) := st in
  if TokenType_eqb (tok_type token) KEYWORD then
    if empty (node_value current)
    then (root, mkNode (tok_value token) (node_children current))
    else (push_back root current, mkNode (tok_value token) [])
  else (root, push_back current (leaf token)).

Definition parse_finish (st : Node * Node) : Node :=
  let (root, current) := st in
  if negb (empty (node_value current)) then push_back root current else root.

Definition parse (tokens : list Token) : Node :=
  parse_finish (fold_left parse_step tokens (empty_node, empty_node)).

(** ** Element access

    [v[0]] on a vector is defined only when the vector is not empty: the
    access is modelled as partial, and a function that performs it out of
    bounds has no result. [s[0]] on a [std::string] is defined for the empty
    string too, where it is the terminating null character. *)

Definition at0 {A : Type} (v : list A) : option A := nth_error v 0.

Definition char_at0 (s : string) : ascii :=
  match s with String c _ => c | EmptyString => zero end.

(** ** [checkSemantics]

    The message written to [std::cerr] before [return false] is left
    out: the result is the verdict alone. *)

Fixpoint checkSemantics_loop (cs : list Node) : option bool :=
  match cs with
  | [] => Some true
  | child :: cs' =>
      if String.eqb (node_value child) "print" then
        if Nat.eqb (List.length (node_children child)) 0 then Some false
        else
          match at0 (node_children child) with
          | None => None
          | Some g =>
              if negb (Ascii.eqb (char_at0 (node_value g)) dquote)
              then Some false
              else checkSemantics_loop cs'
          end
      else checkSemantics_loop cs'
  end.

Definition checkSemantics (node : Node) : option bool :=
  checkSemantics_loop (node_children node).

(** ** [generateCode] (the expanded version, with the menu) *)

Definition nl : string := String (ascii_of_nat 10) EmptyString.

(** The inner loop of the [print] branch: [code += grandChild.value]. *)
Definition append_values (code : string) (gs : list Node) : string :=
  fold_left (fun code grandChild => (code ++ node_value grandChild)%string)
            gs code.

Fixpoint generateCode_loop (cs : list Node) (code : string) : option string :=
  match cs with
  | [] => Some code
  | child :: cs' =>
      if String.eqb (node_value child) "def" then
        match at0 (node_children child) with
        | None => None
        | Some g =>
            generateCode_loop cs'
              (code ++ ("void " ++ node_value g ++ "() {" ++ nl))%string
        end
      else if String.eqb (node_value child) "print" then
        let code1 := (code ++ "std::cout << ")%string in
        let code2 := append_values code1 (node_children child) in
        generateCode_loop cs' (code2 ++ (" << std::endl;" ++ nl))%string
      else if String.eqb (node_value child) ":" then
        generateCode_loop cs' (code ++ (" {" ++ nl))%string
      else generateCode_loop cs' (code ++ node_value child)%string
  end.

Definition generateCode (node : Node) : option string :=
  match generateCode_loop (node_children node) EmptyString with
  | Some code => Some (code ++ ("}" ++ nl))%string
  | None => None
  end.

(** ** Notions used in the statements *)

(** The concatenation of the texts of a token sequence. *)
Definition concat_values (tokens : list Token) : string :=
  fold_right (fun t acc => (tok_value t ++ acc)%string) EmptyString tokens.

Definition is_keyword (t : Token) : bool := TokenType_eqb (tok_type t) KEYWORD.

(** The label begins with a double-quote character. *)
Definition begins_with_dquote (s : string) : bool :=
  match s with
  | String c _ => Ascii.eqb c dquote
  | EmptyString => false
  end.

(** A [print] construct that the rule rejects: no child at all, or a first
    child whose label does not begin with a double quote. *)
Definition bad_print (child : Node) : Prop :=
  node_value child = "print" /\
  (node_children child = [] \/
   exists g gs, node_children child = g :: gs /\
                begins_with_dquote (node_value g) = false).

(** Every [def] construct among the direct children has a child. *)
Definition defs_have_child (node : Node) : Prop :=
  forall child, In child (node_children node) ->
                node_value child = "def" -> node_children child <> [].

(** Number of closing braces in a text. *)
Fixpoint count_close (s : string) : nat :=
  match s with
  | EmptyString => 0
  | String c s' => (if Ascii.eqb c "}"%char then 1 else 0) + count_close s'
  end.

(** Closing braces that come from the labels a direct child contributes to
    the output. *)
Definition label_closes (child : Node) : nat :=
  if String.eqb (node_value child) "def" then
    match node_children child with
    | g :: _ => count_close (node_value g)
    | [] => 0
    end
  else if String.eqb (node_value child) "print" then
    list_sum (map (fun g => count_close (node_value g)) (node_children child))
  else if String.eqb (node_value child) ":" then 0
  else count_close (node_value child).

(** The tree of [parse l] with leaves for [pre] put in front of the
    children of its first construct. *)
Definition prepend_leaves (pre : list Token) (root : Node) : Node :=
  match node_children root with
  | [] => root
  | c :: cs =>
      mkNode (node_value root)
             (mkNode (node_value c) (map leaf pre ++ node_children c) :: cs)
  end.

(** [prepend_leaves], on the pair of [root] and [current] inside the loop:
    the leaves go to the first construct, which is [current] as long as
    [root] has no child. *)
Definition prepend_state (ls : list Node) (st : Node * Node) : Node * Node :=
  let (root, current) := st in
  match node_children root with
  | [] => (root, mkNode (node_value current) (ls ++ node_children current))
  | c :: cs =>
      (mkNode (node_value root)
              (mkNode (node_value c) (ls ++ node_children c) :: cs),
       current)
  end.

(** [bad_print], decided. *)
Definition rejects (child : Node) : bool :=
  String.eqb (node_value child) "print" &&
  match node_children child with
  | [] => true
  | g :: _ => negb (begins_with_dquote (node_value g))
  end.

(** No token of the sequence is a keyword. *)
Definition no_keyword (tokens : list Token) : bool :=
  forallb (fun t => negb (is_keyword t)) tokens.

(** The string literal of the scenario, with its quotes. *)
Definition hello_literal : string :=
  String dquote ("Hello" ++ String dquote "").

(** The scenario of the specification: the [def main] and [print] of
    [hello_literal], every token followed by one space. *)
Definition scenario : string :=
  "def main ( ) : print ( " ++ hello_literal ++ " )".

(** ** The tokens, described without regular expressions *)

(** The longest prefix of characters that satisfy [f], and what follows
    it. *)
Fixpoint span (f : ascii -> bool) (s : string) : string * string :=
  match s with
  | EmptyString => (EmptyString, EmptyString)
  | String c s' =>
      if f c then let (a, b) := span f s' in (String c a, b)
      else (EmptyString, s)
  end.

(** After an opening quote: the text up to and with the first double quote,
    when no line terminator comes before it, and what follows it. *)
Fixpoint close_quote (s : string) : option (string * string) :=
  match s with
  | EmptyString => None
  | String c s' =>
      if Ascii.eqb dquote c then Some (String c EmptyString, s')
      else if CharClass.is_any c then
        match close_quote s' with
        | Some (a, b) => Some (String c a, b)
        | None => None
        end
      else None
  end.

(** The token that starts a text, and the text after it: a run of word
    characters, a quoted string closed on its line, a run of white space,
    or a run of other characters. *)
Definition token_at (s : string) : option (string * string) :=
  match s with
  | EmptyString => None
  | String c s' =>
      if CharClass.is_word c then Some (span CharClass.is_word s)
      else if Ascii.eqb dquote c then
        match close_quote s' with
        | Some (a, b) => Some (String c a, b)
        | None => Some (span CharClass.is_punct s)
        end
      else if CharClass.is_space c then Some (span CharClass.is_space s)
      else Some (span CharClass.is_punct s)
  end.

(** Every character of the text satisfies [f]. *)
Definition all_in (f : ascii -> bool) (s : string) : bool :=
  forallb f (list_ascii_of_string s).

(** The text ends with a double quote, with no line terminator before
    it. *)
Fixpoint ends_quote (s : string) : bool :=
  match s with
  | EmptyString => false
  | String c s' =>
      (Ascii.eqb dquote c && empty s') || (CharClass.is_any c && ends_quote s')
  end.

(** A double quote, then a text that [ends_quote]. *)
Definition quoted (s : string) : bool :=
  match s with
  | EmptyString => false
  | String c s' => Ascii.eqb dquote c && ends_quote s'
  end.

(** The type of a token, read off its characters. *)
Definition classify_direct (s : string) : TokenType :=
  if String.eqb s "def" || String.eqb s "print" then KEYWORD
  else if negb (empty s) && all_in CharClass.is_word s then IDENTIFIER
  else if quoted s then STRING
  else if negb (empty s) && all_in CharClass.is_space s then WHITESPACE
  else OPERATOR.

(** The lexer that takes the tokens of [token_at] one after the other. The
    fuel bounds the number of tokens. *)
Fixpoint lex_loop (fuel : nat) (s : string) : list Token :=
  match fuel with
  | O => []
  | S fuel' =>
      match token_at s with
      | None => []
      | Some (a, r) => mkToken (classify_direct a) a :: lex_loop fuel' r
      end
  end.

Definition lex (s : string) : list Token := lex_loop (String.length s) s.

(** The last character of the text [String c w]. *)
Fixpoint last_char (c : ascii) (w : string) : ascii :=
  match w with
  | EmptyString => c
  | String c' w' => last_char c' w'
  end.

(** The text begins with a character that satisfies [f]. *)
Definition starts_with (f : ascii -> bool) (s : string) : bool :=
  match s with
  | String c _ => f c
  | EmptyString => false
  end.

(** A token of type KEYWORD or IDENTIFIER. *)
Definition word_token (t : Token) : bool :=
  match tok_type t with
  | KEYWORD | IDENTIFIER => true
  | _ => false
  end.

(** A token of type WHITESPACE. *)
Definition space_token (t : Token) : bool :=
  match tok_type t with
  | WHITESPACE => true
  | _ => false
  end.

(** ** The tree, described by grouping *)

(** Every KEYWORD token of the sequence has a text that is not empty. *)
Definition keywords_named (tokens : list Token) : bool :=
  forallb (fun t => negb (is_keyword t) || negb (empty (tok_value t))) tokens.

(** The constructs of the tokens that follow a keyword of text [v], [ch]
    being the children collected for it so far: each keyword closes the
    construct before it and opens one of its own. *)
Fixpoint group (v : string) (ch : list Node) (tokens : list Token)
  : list Node :=
  match tokens with
  | [] => [mkNode v ch]
  | t :: ts =>
      if is_keyword t then mkNode v ch :: group (tok_value t) [] ts
      else group v (ch ++ [leaf t]) ts
  end.

(** The labels of a tree of two levels, construct after construct: the
    label of the construct, then those of its children. *)
Definition flatten (root : Node) : list string :=
  flat_map (fun c => node_value c :: map node_value (node_children c))
           (node_children root).

(** The sequence begins with a keyword. *)
Definition starts_with_keyword (tokens : list Token) : bool :=
  match tokens with
  | t :: _ => is_keyword t
  | [] => false
  end.

(** The token is the keyword [print]. *)
Definition is_print (t : Token) : bool :=
  is_keyword t && String.eqb (tok_value t) "print".

(** The token that follows is not a keyword and begins with a double
    quote. *)
Definition followed_by_quote (ts : list Token) : bool :=
  match ts with
  | n :: _ => negb (is_keyword n) && begins_with_dquote (tok_value n)
  | [] => false
  end.

(** Every [print] keyword of the sequence is directly followed by a token
    that is not a keyword and begins with a double quote. *)
Fixpoint prints_ok (tokens : list Token) : bool :=
  match tokens with
  | [] => true
  | t :: ts => (if is_print t then followed_by_quote ts else true)
               && prints_ok ts
  end.

(** The construct of label [v] that has the children [ch] already and is
    followed by the tokens [ts] passes the rule of [checkSemantics]. *)
Definition construct_ok (v : string) (ch : list Node) (ts : list Token)
  : bool :=
  negb (String.eqb v "print") ||
  match ch with
  | g :: _ => begins_with_dquote (node_value g)
  | [] => followed_by_quote ts
  end.

(** ** Counting braces *)

(** Number of opening braces in a text. *)
Fixpoint count_open (s : string) : nat :=
  match s with
  | EmptyString => 0
  | String c s' => (if Ascii.eqb c "{"%char then 1 else 0) + count_open s'
  end.

(** Opening braces that come from the labels a direct child contributes to
    the output of [generateCode]. *)
Definition label_opens (child : Node) : nat :=
  if String.eqb (node_value child) "def" then
    match node_children child with
    | g :: _ => count_open (node_value g)
    | [] => 0
    end
  else if String.eqb (node_value child) "print" then
    list_sum (map (fun g => count_open (node_value g)) (node_children child))
  else if String.eqb (node_value child) ":" then 0
  else count_open (node_value child).

(** Number of direct children with the label [v]. *)
Definition count_labelled (v : string) (node : Node) : nat :=
  List.length (filter (fun c => String.eqb (node_value c) v)
                      (node_children node)).

(** ** [generateCode], first version (Step 4, lines 138-153)

    A closing brace follows every direct child; a child that is neither
    [def] nor [print] contributes nothing else. *)

Fixpoint generateCode_draft_loop (cs : list Node) (code : string)
  : option string :=
  match cs with
  | [] => Some code
  | child :: cs' =>
      if String.eqb (node_value child) "def" then
        match at0 (node_children child) with
        | None => None
        | Some g =>
            generateCode_draft_loop cs'
              ((code ++ ("void " ++ node_value g ++ "() {" ++ nl)) ++ "}")%string
        end
      else if String.eqb (node_value child) "print" then
        let code1 := (code ++ "std::cout << ")%string in
        let code2 := append_values code1 (node_children child) in
        generateCode_draft_loop cs'
          ((code2 ++ (" << std::endl;" ++ nl)) ++ "}")%string
      else generateCode_draft_loop cs' (code ++ "}")%string
  end.

Definition generateCode_draft (node : Node) : option string :=
  generateCode_draft_loop (node_children node) EmptyString.

(** Closing braces that come from the labels a direct child contributes to
    the output of [generateCode_draft]. *)
Definition draft_label_closes (child : Node) : nat :=
  if String.eqb (node_value child) "def" then
    match node_children child with
    | g :: _ => count_close (node_value g)
    | [] => 0
    end
  else if String.eqb (node_value child) "print" then
    list_sum (map (fun g => count_close (node_value g)) (node_children child))
  else 0.

(** ** [printTokens] and [printTree]

    Each function is modelled by the text it writes to [std::cout];
    [std::endl] is a line break. *)

(** The value of the enumeration, as [operator<<] prints it. *)
Definition type_number (t : TokenType) : nat :=
  match t with
  | KEYWORD => 0 | IDENTIFIER => 1 | NUMBER => 2 | STRING => 3
  | OPERATOR => 4 | WHITESPACE => 5 | UNKNOWN => 6
  end.

(** The decimal digit for a number below ten. *)
Definition digit (n : nat) : string :=
  String (ascii_of_nat (48 + n)) EmptyString.

Definition printTokens (tokens : list Token) : string :=
  fold_left
    (fun out token =>
       (out ++ "Token(" ++ tok_value token ++ ", Type: "
            ++ digit (type_number (tok_type token)) ++ ")" ++ nl)%string)
    tokens EmptyString.

(** [std::string(depth, ' ')] *)
Fixpoint spaces (depth : nat) : string :=
  match depth with
  | O => EmptyString
  | S d => String " "%char (spaces d)
  end.

(** [printTree(node, depth)], [depth] being the indentation, never
    negative. *)
Fixpoint printTree (node : Node) (depth : nat) : string :=
  match node with
  | mkNode value children =>
      ((spaces depth ++ value ++ nl) ++
       (fix loop (cs : list Node) : string :=
          match cs with
          | [] => EmptyString
          | child :: cs' => printTree child (depth + 2) ++ loop cs'
          end) children)%string
  end.

(** The loop of [printTree] over the children. *)
Definition printTree_children (cs : list Node) (depth : nat) : string :=
  fold_right (fun child out => (printTree child depth ++ out)%string)
             EmptyString cs.

(** The line of a token in the printed tree: a keyword is a construct,
    under the root; any other token is a leaf, under a construct. *)
Definition token_line (t : Token) : string :=
  ((if is_keyword t then spaces 2 else spaces 4) ++ tok_value t ++ nl)%string.

Definition token_lines (tokens : list Token) : string :=
  fold_right (fun t out => (token_line t ++ out)%string) EmptyString tokens.

(** ** The menu ([main])

    The loop is modelled on the values that [std::cin] delivers: for each
    turn the option and, for option 1, the file name. An extraction that
    fails (text that is not a number, end of input) is not modelled. The
    files are a function from names to contents, [None] for a file that
    does not open. The output is the list of the texts written, each with
    its stream. A turn has no result when the C++ code has none (a read
    out of bounds). *)

Inductive stream : Type := Cout | Cerr.

Record menu_state : Type :=
  mkMenu { m_filename : string; m_code : string; m_tokens : list Token;
           m_syntaxTree : Node; m_exit : bool }.

Record menu_input : Type := mkInput { in_option : Z; in_filename : string }.

Definition output : Type := list (stream * string).

(** The variables of [main] before the loop. *)
Definition initial_state : menu_state :=
  mkMenu EmptyString EmptyString [] empty_node false.

Definition menu_text : output :=
  [(Cout, "Menu:" ++ nl); (Cout, "1. Load Python file" ++ nl);
   (Cout, "2. Tokenize" ++ nl); (Cout, "3. Parse" ++ nl);
   (Cout, "4. Check Semantics" ++ nl); (Cout, "5. Generate C++ Code" ++ nl);
   (Cout, "6. Exit" ++ nl); (Cout, "Choose an option: ")]%string.

Definition parse_first : output :=
  [(Cerr, "Parse the code first." ++ nl)%string].

Section Menu.

Variable files : string -> option string.

(** The [switch] of one turn. *)
Definition menu_case (st : menu_state) (inp : menu_input)
  : option (menu_state * output) :=
  let '(mkMenu filename code tokens syntaxTree exit) := st in
  match in_option inp with
  | 1%Z =>
      let filename' := in_filename inp in
      match files filename' with
      | Some content =>
          Some (mkMenu filename' content tokens syntaxTree exit,
                [(Cout, "Enter filename: "); (Cout, "File loaded." ++ nl)]%string)
      | None =>
          Some (mkMenu filename' code tokens syntaxTree exit,
                [(Cout, "Enter filename: ");
                 (Cerr, "Failed to open file." ++ nl)]%string)
      end
  | 2%Z =>
      if negb (empty code) then
        match tokenize code with
        | Some tokens' =>
            Some (mkMenu filename code tokens' syntaxTree exit,
                  [(Cout, printTokens tokens')])
        | None => None
        end
      else Some (st, [(Cerr, "Load a file first." ++ nl)%string])
  | 3%Z =>
      match tokens with
      | _ :: _ =>
          let syntaxTree' := parse tokens in
          Some (mkMenu filename code tokens syntaxTree' exit,
                [(Cout, printTree syntaxTree' 0)])
      | [] => Some (st, [(Cerr, "Tokenize the code first." ++ nl)%string])
      end
  | 4%Z =>
      if negb (empty (node_value syntaxTree)) then
        match checkSemantics syntaxTree with
        | Some true => Some (st, [(Cout, "Semantic check passed." ++ nl)%string])
        | Some false =>
            Some (st, [(Cerr, "Error: 'print' requires a string argument"
                                ++ nl)%string])
        | None => None
        end
      else Some (st, parse_first)
  | 5%Z =>
      if negb (empty (node_value syntaxTree)) then
        match generateCode syntaxTree with
        | Some cppCode =>
            Some (st, [(Cout, "Generated C++ Code:" ++ nl ++ cppCode ++ nl)%string])
        | None => None
        end
      else Some (st, parse_first)
  | 6%Z => Some (mkMenu filename code tokens syntaxTree true, [])
  | _ => Some (st, [(Cerr, "Invalid option." ++ nl)%string])
  end.

(** The loop [while (!exit)] on the inputs given: each turn prints the
    menu, reads and runs the [switch]. When the inputs are used up the menu
    has been printed and the program waits. *)
Fixpoint main_loop (inputs : list menu_input) (st : menu_state)
  : option (menu_state * output) :=
  if m_exit st then Some (st, [])
  else
    match inputs with
    | [] => Some (st, menu_text)
    | inp :: inputs' =>
        match menu_case st inp with
        | None => None
        | Some (st1, out1) =>
            match main_loop inputs' st1 with
            | None => None
            | Some (st2, out2) => Some (st2, menu_text ++ out1 ++ out2)
            end
        end
    end.

End Menu.

(** A character that is neither a double quote nor a line terminator. *)
Definition plain_char (c : ascii) : bool :=
  CharClass.is_any c && negb (Ascii.eqb dquote c).

(** What the text of a token is like, for each type. *)
Definition text_fits_type (t : Token) : Prop :=
  match tok_type t with
  | KEYWORD | IDENTIFIER => all_in CharClass.is_word (tok_value t) = true
  | WHITESPACE => all_in CharClass.is_space (tok_value t) = true
  | OPERATOR => all_in CharClass.is_punct (tok_value t) = true
  | STRING =>
      exists body,
        tok_value t = String dquote (body ++ String dquote EmptyString) /\
        all_in plain_char body = true
  | NUMBER | UNKNOWN => False
  end.

(** * Facts *)

(** ** Strings *)

Lemma str_app_assoc (a b c : string) : ((a ++ b) ++ c = a ++ (b ++ c))%string.
Proof. induction a as [|x a IH]; simpl; [reflexivity | now rewrite IH]. Qed.

Lemma str_app_nil_r (a : string) : (a ++ "" = a)%string.
Proof. induction a as [|x a IH]; simpl; [reflexivity | now rewrite IH]. Qed.

Lemma str_length_app (a b : string) :
  String.length (a ++ b) = String.length a + String.length b.
Proof. induction a as [|x a IH]; simpl; [reflexivity | now rewrite IH]. Qed.

Lemma str_snoc_cons (m : string) (c : ascii) (s : string) :
  ((m ++ String c "") ++ s = m ++ String c s)%string.
Proof. now rewrite str_app_assoc. Qed.

Lemma count_close_app (a b : string) :
  count_close (a ++ b) = count_close a + count_close b.
Proof. induction a as [|x a IH]; simpl; [reflexivity | rewrite IH; lia]. Qed.

(** ** The matcher *)

Module RegexFacts.

Lemma accept_search_gains b : gains 0 (accept_search b).
Proof.
  intros st st'. unfold accept_search.
  destruct (b && empty (matched st)); [discriminate |].
  intros [= <-]. split; [reflexivity | lia].
Qed.

Lemma accept_search_total : total (accept_search false).
Proof. intros st. unfold accept_search. simpl. discriminate. Qed.

Lemma plus_greedy_gains k n kont :
  gains n kont ->
  forall s m st', plus_greedy k kont m s = Some st' ->
    text st' = (m ++ s)%string /\
    String.length m + (1 + n) <= String.length (matched st').
Proof.
  intros Hk. induction s as [|c s IH]; simpl; intros m st' E; [discriminate |].
  destruct (in_class k c); [| discriminate].
  destruct (plus_greedy k kont (m ++ String c "") s) as [st1|] eqn:E1.
  - injection E as <-. destruct (IH _ _ E1) as [Ht Hl]. split.
    + now rewrite Ht, str_snoc_cons.
    + rewrite str_length_app in Hl. simpl in Hl. lia.
  - destruct (Hk _ _ E) as [Ht Hl]. unfold advance, text in *. simpl in *.
    split.
    + now rewrite Ht, str_snoc_cons.
    + rewrite str_length_app in Hl. simpl in Hl. lia.
Qed.

Lemma star_lazy_gains k n kont :
  gains n kont ->
  forall s m p st', star_lazy k kont m p s = Some st' ->
    text st' = (m ++ s)%string /\
    String.length m + n <= String.length (matched st').
Proof.
  intros Hk. induction s as [|c s IH]; simpl; intros m p st' E.
  - destruct (kont (mkState m p "")) as [st1|] eqn:E1; [| discriminate].
    injection E as <-. apply (Hk _ _ E1).
  - destruct (kont (mkState m p (String c s))) as [st1|] eqn:E1.
    + injection E as <-. apply (Hk _ _ E1).
    + destruct (in_class k c); [| discriminate].
      destruct (IH _ _ _ E) as [Ht Hl]. split.
      * now rewrite Ht, str_snoc_cons.
      * rewrite str_length_app in Hl. simpl in Hl. lia.
Qed.

(** A match of [r] leaves the text as it is and takes at least [min_len r]
    characters. *)
Lemma exec_gains r :
  forall n kont, gains n kont -> gains (min_len r + n) (exec r kont).
Proof.
  induction r as [c | | k | k | r1 IH1 r2 IH2 | r1 IH1 r2 IH2];
    intros n kont Hk st st' E; simpl in E.
  - destruct st as [m p s]. simpl in E. destruct s as [|c' s]; [discriminate |].
    destruct (Ascii.eqb c c'); [| discriminate].
    destruct (Hk _ _ E) as [Ht Hl]. unfold advance, text in *. simpl in *.
    split.
    + now rewrite Ht, str_snoc_cons.
    + rewrite str_length_app in Hl. simpl in Hl. lia.
  - destruct (word_boundary st); [| discriminate]. apply (Hk _ _ E).
  - destruct (plus_greedy_gains k Hk _ _ E) as [Ht Hl]. split; [easy |].
    simpl. lia.
  - destruct (star_lazy_gains k Hk _ _ _ E) as [Ht Hl]. split; [easy |].
    simpl. lia.
  - simpl. apply (IH1 _ _ (IH2 _ _ Hk)) in E. destruct E as [Ht Hl].
    split; [easy | lia].
  - simpl. destruct (exec r1 kont st) as [st1|] eqn:E1.
    + injection E as <-. destruct (IH1 _ _ Hk _ _ E1) as [Ht Hl].
      split; [easy | lia].
    + destruct (IH2 _ _ Hk _ _ E) as [Ht Hl]. split; [easy | lia].
Qed.

Lemma plus_greedy_total k kont c s m :
  total kont -> in_class k c = true ->
  plus_greedy k kont m (String c s) <> None.
Proof.
  intros Hk Hc. simpl. rewrite Hc.
  destruct (plus_greedy k kont (m ++ String c "") s); [discriminate |].
  apply Hk.
Qed.

Lemma alt_total_r r1 r2 kont st :
  exec r2 kont st <> None -> exec (Alt r1 r2) kont st <> None.
Proof. intros H. simpl. destruct (exec r1 kont st); [discriminate | easy]. Qed.

Lemma alt_total_l r1 r2 kont st :
  exec r1 kont st <> None -> exec (Alt r1 r2) kont st <> None.
Proof. intros H. simpl. destruct (exec r1 kont st); [discriminate | easy]. Qed.

(** Every character belongs to one of [\w], [\s] and [[^\w\s]], so a match
    of the token pattern starts at every position before the end. *)
Lemma token_regex_total p c s :
  match_here token_regex false p (String c s) <> None.
Proof.
  unfold match_here, token_regex.
  do 2 apply alt_total_r.
  destruct (CharClass.is_word c) eqn:Hw.
  - apply alt_total_l. cbn [exec matched rest].
    now apply plus_greedy_total; [apply accept_search_total |].
  - do 3 apply alt_total_r.
    destruct (CharClass.is_space c) eqn:Hs.
    + apply alt_total_l. cbn [exec matched rest].
      now apply plus_greedy_total; [apply accept_search_total |].
    + apply alt_total_r. cbn [exec matched rest].
      apply plus_greedy_total; [apply accept_search_total |].
      cbn [in_class]. unfold CharClass.is_punct. now rewrite Hw, Hs.
Qed.

Lemma token_regex_min_len : min_len token_regex = 1.
Proof. reflexivity. Qed.

(** What a match of the token pattern at a position looks like. *)
Lemma match_here_token b p s st :
  match_here token_regex b p s = Some st ->
  (matched st ++ rest st)%string = s /\ empty (matched st) = false.
Proof.
  unfold match_here. intros E.
  apply (exec_gains token_regex (accept_search_gains b)) in E.
  destruct E as [Ht Hl]. rewrite token_regex_min_len in Hl.
  unfold text in Ht. simpl in *. split; [easy |].
  destruct (matched st); simpl in *; [lia | reflexivity].
Qed.

Lemma regex_search_token_nil p : regex_search token_regex p "" = None.
Proof.
  simpl. destruct (match_here token_regex false p "") as [st|] eqn:E; [| easy].
  apply match_here_token in E. destruct E as [Ht He].
  destruct (matched st); simpl in *; discriminate.
Qed.

Lemma regex_search_token_cons p c s :
  exists st, regex_search token_regex p (String c s) = Some st /\
             (matched st ++ rest st)%string = String c s /\
             empty (matched st) = false.
Proof.
  cbn [regex_search].
  destruct (match_here token_regex false p (String c s)) as [st|] eqn:E.
  - exists st. split; [reflexivity |]. now apply match_here_token in E.
  - now apply token_regex_total in E.
Qed.

End RegexFacts.

(** ** [tokenize] *)

Lemma tokenize_loop_covers (fuel : nat) :
  forall p s b, String.length s < fuel ->
    exists tokens,
      tokenize_loop fuel
        (match regex_search token_regex p s with
         | Some st => Some (mkIter st b)
         | None => None
         end) = Some tokens /\
      concat_values tokens = s.
Proof.
  induction fuel as [|fuel IH]; intros p s b Hlen; [lia |].
  destruct s as [|c s].
  - rewrite RegexFacts.regex_search_token_nil. exists []. now split.
  - destruct (RegexFacts.regex_search_token_cons p c s) as (st & -> & Ht & He).
    cbn [tokenize_loop]. unfold next_match. cbn [it_match]. rewrite He.
    assert (Hrest : String.length (rest st) < fuel).
    { apply (f_equal String.length) in Ht. rewrite str_length_app in Ht.
      simpl in Ht, Hlen. destruct (matched st); simpl in *; [discriminate | lia]. }
    destruct (IH (prev st) (rest st) true Hrest) as (tokens & -> & Hc).
    eexists. split; [reflexivity |]. simpl. now rewrite Hc.
Qed.

(** C1. For every input text [tokenize] returns a token sequence, and the
    texts of its tokens, concatenated in order, are exactly the input: no
    character is dropped or duplicated. The empty text yields the empty
    sequence. *)
Theorem tokenize_concat_is_input :
  (forall code : string,
      exists tokens, tokenize code = Some tokens /\
                     concat_values tokens = code) /\
  tokenize "" = Some [].
Proof.
  split; [| reflexivity].
  intros code. unfold tokenize, first_match. apply tokenize_loop_covers. lia.
Qed.

(** ** [parse] *)

Section ParseLoop.

Local Abbreviation run := (fold_left parse_step).

(** Tokens that are not keywords become leaves of [current]. *)
Lemma run_no_keyword tokens :
  no_keyword tokens = true ->
  forall root current,
    run tokens (root, current) =
    (root, mkNode (node_value current)
                  (node_children current ++ map leaf tokens)).
Proof.
  induction tokens as [|t tokens IH]; simpl; intros Hnk root current.
  - rewrite app_nil_r. now destruct current.
  - apply andb_prop in Hnk. destruct Hnk as [Ht Hnk].
    unfold is_keyword in Ht. apply negb_true_iff in Ht. rewrite Ht.
    rewrite (IH Hnk). unfold push_back. simpl. now rewrite <- app_assoc.
Qed.

(** The label of [root] is never assigned. *)
Lemma run_root_value tokens :
  forall st, node_value (fst (run tokens st)) = node_value (fst st).
Proof.
  induction tokens as [|t tokens IH]; intros [root current]; [reflexivity |].
  cbn [fold_left]. rewrite IH. unfold parse_step.
  destruct (TokenType_eqb (tok_type t) KEYWORD); [| reflexivity].
  now destruct (empty (node_value current)).
Qed.

Lemma parse_finish_root_value st :
  node_value (parse_finish st) = node_value (fst st).
Proof.
  destruct st as [root current]. unfold parse_finish.
  now destruct (negb (empty (node_value current))).
Qed.

(** One turn of the loop commutes with putting leaves in front of the
    first construct. *)
Lemma parse_step_prepend ls st t :
  parse_step (prepend_state ls st) t = prepend_state ls (parse_step st t).
Proof.
  destruct st as [[rv rcs] [v ch]]. unfold parse_step, prepend_state.
  destruct rcs as [|c cs]; cbn [node_children node_value];
    destruct (TokenType_eqb (tok_type t) KEYWORD);
    try destruct (empty v); cbn; try reflexivity.
  all: unfold push_back; cbn; now rewrite <- app_assoc.
Qed.

Lemma run_prepend ls tokens :
  forall st, run tokens (prepend_state ls st) = prepend_state ls (run tokens st).
Proof.
  induction tokens as [|t tokens IH]; intros st; [reflexivity |].
  cbn [fold_left]. now rewrite parse_step_prepend, IH.
Qed.

Lemma parse_finish_prepend pre st :
  parse_finish (prepend_state (map leaf pre) st) =
  prepend_leaves pre (parse_finish st).
Proof.
  destruct st as [[rv rcs] [v ch]].
  unfold parse_finish, prepend_state, prepend_leaves.
  destruct rcs as [|c cs]; cbn [node_children node_value];
    destruct (empty v); reflexivity.
Qed.

End ParseLoop.

(** C4 (as amended). For a token sequence made of one KEYWORD token whose
    text is not empty, followed by tokens that are not keywords, [parse]
    returns a root with exactly one child: its label is the keyword's text
    and its children are leaves labelled with the texts of the remaining
    tokens, in order. *)
Theorem parse_single_keyword (kw : Token) (others : list Token) :
  is_keyword kw = true ->
  empty (tok_value kw) = false ->
  no_keyword others = true ->
  parse (kw :: others) =
  mkNode "" [mkNode (tok_value kw) (map leaf others)].
Proof.
  intros Hk Hne Hnk. unfold parse. cbn [fold_left].
  unfold parse_step at 2. unfold is_keyword in Hk. rewrite Hk.
  cbn [empty_node node_value node_children empty].
  rewrite (run_no_keyword _ Hnk). cbn [parse_finish node_value node_children].
  rewrite Hne. reflexivity.
Qed.

Lemma parse_single_keyword_witness :
  let kw := mkToken KEYWORD "def" in
  let others := [mkToken IDENTIFIER "main"; mkToken OPERATOR "("] in
  is_keyword kw = true /\
  empty (tok_value kw) = false /\
  no_keyword others = true /\
  parse (kw :: others) =
  mkNode "" [mkNode "def" [mkNode "main" []; mkNode "(" []]].
Proof.
  split; [reflexivity |]. split; [reflexivity |]. split; [reflexivity |].
  apply (parse_single_keyword (mkToken KEYWORD "def")
           [mkToken IDENTIFIER "main"; mkToken OPERATOR "("]);
    reflexivity.
Defined.

(** C4, as stated, fails for a keyword token with an empty text: the
    sequence is one KEYWORD token followed by a token that is not a
    keyword, and the root has no child. *)
Lemma parse_single_keyword_empty_text :
  is_keyword (mkToken KEYWORD "") = true /\
  no_keyword [mkToken IDENTIFIER "main"] = true /\
  parse [mkToken KEYWORD ""; mkToken IDENTIFIER "main"] = mkNode "" [].
Proof. repeat split. Qed.

(** C5. For a token sequence with no KEYWORD token (the empty sequence
    included) [parse] returns a root with no child. *)
Theorem parse_no_keyword (tokens : list Token) :
  no_keyword tokens = true ->
  parse tokens = mkNode "" [] /\ List.length (node_children (parse tokens)) = 0.
Proof.
  intros Hnk. unfold parse. rewrite (run_no_keyword _ Hnk).
  cbn. split; reflexivity.
Qed.

Lemma parse_no_keyword_witness :
  let tokens :=
    [mkToken IDENTIFIER "x"; mkToken WHITESPACE " "; mkToken NUMBER "1"] in
  no_keyword tokens = true /\
  parse tokens = mkNode "" [] /\
  List.length (node_children (parse tokens)) = 0.
Proof.
  split; [reflexivity |].
  apply (parse_no_keyword
           [mkToken IDENTIFIER "x"; mkToken WHITESPACE " "; mkToken NUMBER "1"]).
  reflexivity.
Defined.

(** C6 (as amended). The tokens before the first keyword are kept: the tree
    of a sequence that begins with tokens that are not keywords is the tree
    of what follows them, with leaves for those tokens, in order, in front
    of the children of its first construct (when it has one). *)
Theorem parse_leading_tokens_kept (pre tokens : list Token) :
  no_keyword pre = true ->
  parse (pre ++ tokens) = prepend_leaves pre (parse tokens).
Proof.
  intros Hnk. unfold parse. rewrite fold_left_app, (run_no_keyword _ Hnk).
  assert (E : (empty_node,
               mkNode (node_value empty_node)
                      (node_children empty_node ++ map leaf pre)) =
              prepend_state (map leaf pre) (empty_node, empty_node)).
  { cbn. now rewrite app_nil_r. }
  rewrite E, run_prepend. apply parse_finish_prepend.
Qed.

Lemma parse_leading_tokens_kept_witness :
  let pre := [mkToken IDENTIFIER "x"; mkToken WHITESPACE " "] in
  let tokens := [mkToken KEYWORD "def"; mkToken IDENTIFIER "main"] in
  no_keyword pre = true /\
  parse (pre ++ tokens) = prepend_leaves pre (parse tokens).
Proof.
  split; [reflexivity |].
  apply (parse_leading_tokens_kept
           [mkToken IDENTIFIER "x"; mkToken WHITESPACE " "]).
  reflexivity.
Defined.

(** C6, as stated, fails: a token that is not a keyword, put before [def
    main], ends up as the first child of the [def] construct, so the tree
    differs from the tree of [def main]. *)
Lemma parse_leading_tokens_not_discarded :
  parse [mkToken IDENTIFIER "x"; mkToken KEYWORD "def"; mkToken IDENTIFIER "main"]
    = mkNode "" [mkNode "def" [mkNode "x" []; mkNode "main" []]] /\
  parse [mkToken KEYWORD "def"; mkToken IDENTIFIER "main"]
    = mkNode "" [mkNode "def" [mkNode "main" []]] /\
  parse [mkToken IDENTIFIER "x"; mkToken KEYWORD "def"; mkToken IDENTIFIER "main"]
    <> parse [mkToken KEYWORD "def"; mkToken IDENTIFIER "main"].
Proof. repeat split. discriminate. Qed.

(** C9. The root that [parse] returns has the empty string as its label,
    whatever the tokens. *)
Theorem parse_root_label_empty (tokens : list Token) :
  node_value (parse tokens) = "".
Proof.
  unfold parse. now rewrite parse_finish_root_value, run_root_value.
Qed.

(** ** [checkSemantics] *)

Lemma char_at0_dquote (s : string) :
  Ascii.eqb (char_at0 s) dquote = begins_with_dquote s.
Proof. destruct s; reflexivity. Qed.

Lemma rejects_iff (child : Node) : rejects child = true <-> bad_print child.
Proof.
  unfold rejects, bad_print. rewrite andb_true_iff, String.eqb_eq.
  destruct (node_children child) as [|g gs]; split; intros [Hv H]; split;
    try exact Hv.
  - now left.
  - reflexivity.
  - right. exists g, gs. split; [reflexivity |]. now apply negb_true_iff.
  - destruct H as [H | (g' & gs' & [= <- <-] & H)]; [discriminate |].
    now apply negb_true_iff.
Qed.

(** The loop stops with [false] at the first construct that the rule
    rejects, and never reads out of bounds. *)
Lemma checkSemantics_loop_existsb (cs : list Node) :
  checkSemantics_loop cs = Some (negb (existsb rejects cs)).
Proof.
  induction cs as [|child cs IH]; [reflexivity |].
  cbn [checkSemantics_loop existsb]. unfold rejects at 1.
  destruct (String.eqb (node_value child) "print"); [| exact IH].
  destruct (node_children child) as [|g gs]; [reflexivity |].
  cbn [List.length Nat.eqb at0 nth_error andb].
  rewrite char_at0_dquote.
  destruct (begins_with_dquote (node_value g)); [exact IH | reflexivity].
Qed.

(** C3. [checkSemantics] returns [false] exactly when some direct child of
    the root labelled [print] has no child or has a first child whose label
    does not begin with a double quote; on every other tree it returns
    [true], and a direct child with another label is never the cause of a
    failure. *)
Theorem checkSemantics_fails_iff_bad_print (node : Node) :
  (checkSemantics node = Some false <->
   exists child, In child (node_children node) /\ bad_print child) /\
  (checkSemantics node = Some true <->
   forall child, In child (node_children node) -> ~ bad_print child) /\
  ((forall child, In child (node_children node) ->
                  node_value child <> "print") ->
   checkSemantics node = Some true).
Proof.
  unfold checkSemantics. repeat split.
  - rewrite checkSemantics_loop_existsb. intros [= H].
    apply negb_false_iff, existsb_exists in H. destruct H as (c & Hin & Hr).
    exists c. split; [exact Hin | now apply rejects_iff].
  - intros (c & Hin & Hb). rewrite checkSemantics_loop_existsb. f_equal.
    apply negb_false_iff, existsb_exists. exists c.
    split; [exact Hin | now apply rejects_iff].
  - rewrite checkSemantics_loop_existsb. intros [= H] c Hin Hb.
    apply negb_true_iff in H. apply rejects_iff in Hb.
    assert (existsb rejects (node_children node) = true)
      by (apply existsb_exists; now exists c).
    congruence.
  - intros H. rewrite checkSemantics_loop_existsb. f_equal.
    apply negb_true_iff. destruct (existsb rejects (node_children node)) eqn:E;
      [| reflexivity].
    apply existsb_exists in E. destruct E as (c & Hin & Hr).
    apply rejects_iff in Hr. now destruct (H c Hin).
  - intros H. rewrite checkSemantics_loop_existsb. f_equal.
    apply negb_true_iff. destruct (existsb rejects (node_children node)) eqn:E;
      [| reflexivity].
    apply existsb_exists in E. destruct E as (c & Hin & Hr).
    apply rejects_iff in Hr. destruct Hr as [Hv _]. now destruct (H c Hin).
Qed.

(** ** [generateCode] *)

Lemma append_values_app (gs : list Node) :
  forall code,
    append_values code gs =
    (code ++ append_values "" gs)%string.
Proof.
  unfold append_values.
  induction gs as [|g gs IH]; intros code; cbn [fold_left].
  - now rewrite str_app_nil_r.
  - rewrite IH, (IH (""%string ++ node_value g)%string). cbn [append].
    now rewrite str_app_assoc.
Qed.

Lemma list_sum_cons (a : nat) (l : list nat) :
  list_sum (a :: l) = a + list_sum l.
Proof. reflexivity. Qed.

Lemma count_close_append_values (gs : list Node) :
  count_close (append_values "" gs) =
  list_sum (map (fun g => count_close (node_value g)) gs).
Proof.
  induction gs as [|g gs IH]; [reflexivity |].
  change (append_values "" (g :: gs)) with (append_values (node_value g) gs).
  cbn [map]. rewrite list_sum_cons.
  now rewrite append_values_app, count_close_app, IH.
Qed.

(** The loop has a result exactly when no [def] construct is without a
    child; the result then extends [code], and the text added has the
    closing braces of the labels and no other. *)
Lemma generateCode_loop_spec (cs : list Node) :
  forall code,
    (forall child, In child cs ->
                   node_value child = "def" -> node_children child <> []) ->
    exists body,
      generateCode_loop cs code = Some (code ++ body)%string /\
      count_close body = list_sum (map label_closes cs).
Proof.
  induction cs as [|child cs IH]; intros code Hdef.
  - exists ""%string. now rewrite str_app_nil_r.
  - assert (Hcs : forall c, In c cs -> node_value c = "def" ->
                            node_children c <> [])
      by (intros c Hc; apply Hdef; now right).
    cbn [generateCode_loop map]. rewrite list_sum_cons.
    unfold label_closes at 1.
    destruct (String.eqb (node_value child) "def") eqn:Ed.
    { apply String.eqb_eq in Ed.
      destruct (node_children child) as [|g gs] eqn:Eg;
        [now destruct (Hdef child (or_introl eq_refl) Ed) |].
      cbn [at0 nth_error].
      destruct (IH (code ++ ("void " ++ node_value g ++ "() {" ++ nl))%string Hcs)
        as (body & -> & Hb).
      eexists. rewrite str_app_assoc. split; [reflexivity |].
      rewrite !count_close_app, Hb. cbn -[list_sum]. lia. }
    destruct (String.eqb (node_value child) "print").
    { rewrite append_values_app.
      destruct (IH ((code ++ "std::cout << ") ++
                    append_values "" (node_children child) ++
                    " << std::endl;" ++ nl)%string Hcs) as (body & Hg & Hb).
      rewrite <- !str_app_assoc in *. rewrite Hg.
      eexists. rewrite !str_app_assoc. split; [reflexivity |].
      rewrite !count_close_app, count_close_append_values, Hb. cbn -[list_sum]. lia. }
    destruct (String.eqb (node_value child) ":").
    { destruct (IH (code ++ " {" ++ nl)%string Hcs) as (body & -> & Hb).
      eexists. rewrite str_app_assoc. split; [reflexivity |].
      rewrite !count_close_app, Hb. cbn -[list_sum]. lia. }
    destruct (IH (code ++ node_value child)%string Hcs) as (body & -> & Hb).
    eexists. rewrite str_app_assoc. split; [reflexivity |].
    rewrite !count_close_app, Hb. lia.
Qed.

Lemma generateCode_loop_defined (cs : list Node) :
  forall code,
    generateCode_loop cs code <> None ->
    forall child, In child cs ->
                  node_value child = "def" -> node_children child <> [].
Proof.
  induction cs as [|child cs IH]; intros code Hsome c Hin Hv; [easy |].
  cbn [generateCode_loop] in Hsome.
  destruct Hin as [<- | Hin].
  - rewrite Hv in Hsome. cbn in Hsome.
    destruct (node_children child); [now cbn in Hsome | discriminate].
  - destruct (String.eqb (node_value child) "def").
    { destruct (at0 (node_children child)); [| easy]. eapply IH; eauto. }
    destruct (String.eqb (node_value child) "print"); [eapply IH; eauto |].
    destruct (String.eqb (node_value child) ":"); eapply IH; eauto.
Qed.

(** C8. When every [def] construct has a child, [generateCode] returns the
    text produced for the direct children followed by one closing brace and
    a line break; but for that brace, the output has no closing brace other
    than those inside the labels copied to it, however many [def]
    constructs there are. *)
Theorem generateCode_one_closing_brace (node : Node) :
  defs_have_child node ->
  exists body,
    generateCode node = Some (body ++ "}" ++ nl)%string /\
    generateCode_loop (node_children node) "" = Some body /\
    count_close (body ++ "}" ++ nl) =
    1 + list_sum (map label_closes (node_children node)).
Proof.
  intros Hdef. unfold generateCode.
  destruct (generateCode_loop_spec (node_children node) ""%string Hdef)
    as (body & -> & Hb).
  exists body. cbn [append]. repeat split.
  rewrite count_close_app, Hb. cbn -[list_sum]. lia.
Qed.

Lemma generateCode_one_closing_brace_witness :
  let tree :=
    mkNode "" [mkNode "def" [mkNode "f" []]; mkNode "print" [mkNode "1" []];
               mkNode "def" [mkNode "g" []]] in
  defs_have_child tree /\
  exists body,
    generateCode tree = Some (body ++ "}" ++ nl)%string /\
    generateCode_loop (node_children tree) "" = Some body /\
    count_close (body ++ "}" ++ nl) =
    1 + list_sum (map label_closes (node_children tree)).
Proof.
  assert (H : defs_have_child
                (mkNode "" [mkNode "def" [mkNode "f" []];
                            mkNode "print" [mkNode "1" []];
                            mkNode "def" [mkNode "g" []]])).
  { intros child [<- | [<- | [<- | []]]] _; discriminate. }
  split; [exact H | exact (generateCode_one_closing_brace H)].
Defined.

(** C10. [generateCode] reads the first child of each [def] construct
    without a check: all its accesses are in bounds exactly on the trees
    whose [def] constructs all have a child. [checkSemantics] tests the size
    first and is in bounds on every tree. *)
Theorem generateCode_in_bounds_iff_defs_have_child :
  (forall node, generateCode node <> None <-> defs_have_child node) /\
  (forall label before after,
      generateCode (mkNode label (before ++ mkNode "def" [] :: after)) = None) /\
  (forall node, checkSemantics node <> None).
Proof.
  assert (Hiff : forall node, generateCode node <> None <-> defs_have_child node).
  { intros node. split.
    - intros H. unfold generateCode in H.
      destruct (generateCode_loop (node_children node) "") eqn:E; [| easy].
      intros child Hin Hv.
      apply (@generateCode_loop_defined (node_children node) ""%string);
        [congruence | exact Hin | exact Hv].
    - intros H. unfold generateCode.
      destruct (generateCode_loop_spec (node_children node) ""%string H)
        as (body & -> & _).
      discriminate. }
  repeat split; try apply Hiff.
  - intros label before after.
    destruct (generateCode (mkNode label (before ++ mkNode "def" [] :: after)))
      eqn:E; [| reflexivity].
    assert (Hd : defs_have_child
                   (mkNode label (before ++ mkNode "def" [] :: after)))
      by (apply Hiff; congruence).
    destruct (Hd (mkNode "def" [])); try reflexivity.
    cbn [node_children]. apply in_or_app. right. now left.
  - intros node. unfold checkSemantics.
    rewrite checkSemantics_loop_existsb. discriminate.
Qed.

(** ** The pipeline on the scenario of the specification *)

(** C2 (as amended). On [def main ( ) : print ( "Hello" )], [tokenize] and
    then [parse] give a root with exactly two direct children, labelled
    [def] and [print]; the first child of the [print] construct is the
    white space that follows the keyword, and [checkSemantics] returns
    [false]. *)
Theorem scenario_two_constructs_check_fails :
  exists tokens tree,
    tokenize scenario = Some tokens /\
    parse tokens = tree /\
    map node_value (node_children tree) = ["def"; "print"]%string /\
    (exists def_children rest_of_print,
        node_children tree =
        [mkNode "def" def_children;
         mkNode "print" (mkNode " " [] :: rest_of_print)] /\
        In (mkNode hello_literal []) rest_of_print) /\
    checkSemantics tree = Some false.
Proof.
  eexists. eexists. split; [vm_compute; reflexivity |].
  split; [vm_compute; reflexivity |].
  split; [reflexivity |]. split; [| reflexivity].
  eexists. eexists. split; [reflexivity |]. cbn. tauto.
Qed.

(** C2, as stated, fails: the tree of the scenario has the two children
    [def] and [print], and [checkSemantics] does not return [true] on
    it. *)
Lemma scenario_check_does_not_pass :
  exists tokens,
    tokenize scenario = Some tokens /\
    map node_value (node_children (parse tokens)) = ["def"; "print"]%string /\
    checkSemantics (parse tokens) = Some false /\
    checkSemantics (parse tokens) <> Some true.
Proof.
  eexists. split; [vm_compute; reflexivity |]. split; [reflexivity |].
  split; [reflexivity | discriminate].
Qed.

(** ** Classification of digits *)

(** Every character of the text is in the class. *)
Lemma plus_greedy_accept_all_sound k :
  forall s m st,
    plus_greedy k accept_all m s = Some st ->
    forallb (in_class k) (list_ascii_of_string s) = true.
Proof.
  induction s as [|c s IH]; intros m st E; [reflexivity |].
  cbn [plus_greedy] in E. cbn [list_ascii_of_string forallb].
  destruct (in_class k c); [| discriminate]. cbn [andb].
  destruct (plus_greedy k accept_all (m ++ String c "") s) eqn:E1.
  - eapply IH; eauto.
  - unfold accept_all, advance in E. cbn [rest] in E.
    destruct s; [reflexivity | discriminate].
Qed.

Lemma plus_greedy_accept_all_complete k :
  forall s m,
    s <> ""%string ->
    forallb (in_class k) (list_ascii_of_string s) = true ->
    plus_greedy k accept_all m s <> None.
Proof.
  induction s as [|c s IH]; intros m Hne Hall; [easy |].
  cbn [list_ascii_of_string forallb] in Hall.
  apply andb_prop in Hall. destruct Hall as [Hc Hall].
  cbn [plus_greedy]. rewrite Hc.
  destruct s as [|c' s'].
  - cbn. discriminate.
  - specialize (IH (m ++ String c "")%string ltac:(discriminate) Hall).
    destruct (plus_greedy k accept_all (m ++ String c "") (String c' s'));
      [discriminate | easy].
Qed.

Lemma digit_is_word (c : ascii) :
  in_class Digit c = true -> in_class Word c = true.
Proof.
  cbn [in_class]. unfold CharClass.is_word. intros ->.
  now rewrite orb_true_r.
Qed.

(** The test for [\w+] comes before the test for [[0-9]+] and accepts
    every text that the latter accepts: no text is given the type
    NUMBER. *)
Lemma classify_never_NUMBER (token_str : string) :
  classify token_str <> NUMBER.
Proof.
  unfold classify.
  destruct (regex_match token_str keyword_regex); [discriminate |].
  destruct (regex_match token_str (Plus Word)) eqn:Ew; [discriminate |].
  destruct (regex_match token_str (Plus Digit)) eqn:Ed.
  - exfalso. unfold regex_match in Ew, Ed. cbn [exec matched rest] in Ew, Ed.
    destruct (plus_greedy Digit accept_all "" token_str) as [st|] eqn:E;
      [| discriminate].
    assert (Hne : token_str <> ""%string) by (intros ->; discriminate).
    apply plus_greedy_accept_all_sound in E.
    assert (Hw : forallb (in_class Word) (list_ascii_of_string token_str) = true).
    { rewrite forallb_forall in *. intros c Hc. apply digit_is_word. now apply E. }
    pose proof (plus_greedy_accept_all_complete Word ""%string Hne Hw) as Hc.
    destruct (plus_greedy Word accept_all "" token_str); [discriminate | easy].
  - destruct (regex_match token_str re_string); [discriminate |].
    destruct (regex_match token_str (Plus Space)); discriminate.
Qed.

(** C7 (what the code does). The text [123] is one token, of type
    IDENTIFIER and not of type NUMBER. *)
Theorem tokenize_digits_IDENTIFIER :
  tokenize "123" = Some [mkToken IDENTIFIER "123"] /\
  (forall code tokens, tokenize code = Some tokens ->
                       forall t, In t tokens -> tok_type t <> NUMBER).
Proof.
  split; [reflexivity |].
  intros code tokens. unfold tokenize.
  generalize (S (String.length code)) (first_match token_regex code).
  intros fuel. revert tokens.
  induction fuel as [|fuel IH]; intros tokens i E t Hin.
  - destruct i; [discriminate |]. injection E as <-. easy.
  - destruct i as [m|]; [| injection E as <-; easy].
    cbn [tokenize_loop] in E.
    destruct (tokenize_loop fuel (next_match token_regex m)) as [ts|] eqn:E1;
      [| discriminate].
    injection E as <-. destruct Hin as [<- | Hin].
    + apply classify_never_NUMBER.
    + eapply IH; eauto.
Qed.

(** * More about the tokenizer *)

(** ** Character classes *)

Lemma space_not_word (c : ascii) :
  CharClass.is_space c = true -> CharClass.is_word c = false.
Proof.
  destruct c as [[] [] [] [] [] [] [] []]; vm_compute; congruence.
Qed.

Lemma digit_word (c : ascii) :
  CharClass.is_word c = false -> CharClass.is_digit c = false.
Proof.
  unfold CharClass.is_word. intros H.
  destruct (CharClass.is_digit c); [| reflexivity].
  now rewrite orb_true_r in H.
Qed.

Lemma dquote_classes :
  CharClass.is_word dquote = false /\ CharClass.is_space dquote = false /\
  CharClass.is_punct dquote = true /\ CharClass.is_any dquote = true.
Proof. repeat split. Qed.

Lemma eqb_dquote (c : ascii) : Ascii.eqb dquote c = true -> c = dquote.
Proof. intros H. symmetry. now apply Ascii.eqb_eq. Qed.

(** ** Runs *)

Lemma span_app (f : ascii -> bool) (s : string) :
  (fst (span f s) ++ snd (span f s))%string = s.
Proof.
  induction s as [|c s IH]; [reflexivity |]. cbn [span].
  destruct (f c); [| reflexivity].
  destruct (span f s) as [a b]. cbn in *. now rewrite IH.
Qed.

Lemma span_all (f : ascii -> bool) (s : string) :
  all_in f s = true -> span f s = (s, EmptyString).
Proof.
  unfold all_in. induction s as [|c s IH]; [reflexivity |].
  cbn [list_ascii_of_string forallb span]. intros H.
  apply andb_prop in H. destruct H as [-> H]. now rewrite (IH H).
Qed.

(** A run of the class, followed by a text that does not go on with the
    class, is what [span] splits off. *)
Lemma span_prefix (f : ascii -> bool) (a r : string) :
  all_in f a = true ->
  match r with String c _ => f c = false | EmptyString => True end ->
  span f (a ++ r) = (a, r).
Proof.
  unfold all_in. intros Ha Hr.
  induction a as [|c a IH]; cbn [append].
  - destruct r as [|c r]; [reflexivity |]. cbn [span]. now rewrite Hr.
  - cbn [list_ascii_of_string forallb] in Ha.
    apply andb_prop in Ha. destruct Ha as [Hc Ha].
    cbn [span]. now rewrite Hc, (IH Ha).
Qed.

(** With a continuation that accepts everywhere, [k+] takes the whole
    run. *)
Lemma plus_greedy_span (k : cclass) :
  forall s m c s',
    s = String c s' -> in_class k c = true ->
    exists p,
      plus_greedy k (accept_search false) m s =
      Some (mkState (m ++ fst (span (in_class k) s)) p
                    (snd (span (in_class k) s))).
Proof.
  induction s as [|x s IH]; intros m c s' [= <- <-] Hc.
  cbn [plus_greedy span]. rewrite Hc.
  destruct s as [|y s].
  - cbn. now exists (Some x).
  - destruct (in_class k y) eqn:Hy.
    + destruct (IH (m ++ String x "")%string y s eq_refl Hy) as (p & ->).
      exists p. destruct (span (in_class k) (String y s)) as [a b].
      cbn [fst snd]. now rewrite str_snoc_cons.
    + cbn [plus_greedy span]. rewrite Hy. cbn. now exists (Some x).
Qed.

Lemma plus_greedy_none (k : cclass) kont m c s :
  in_class k c = false -> plus_greedy k kont m (String c s) = None.
Proof. intros H. cbn. now rewrite H. Qed.

(** The lazy body of a string literal stops at the first double quote. *)
Lemma star_lazy_close_quote :
  forall s m p,
    star_lazy AnyChar (exec (Lit dquote) (accept_search false)) m p s =
    match close_quote s with
    | Some (a, b) => Some (mkState (m ++ a) (Some dquote) b)
    | None => None
    end.
Proof.
  induction s as [|c s IH]; intros m p; [reflexivity |].
  cbn [star_lazy close_quote exec rest matched].
  destruct (Ascii.eqb dquote c) eqn:Eq.
  - apply eqb_dquote in Eq. subst c. reflexivity.
  - cbn [in_class]. destruct (CharClass.is_any c); [| reflexivity].
    rewrite IH. destruct (close_quote s) as [[a b]|]; [| reflexivity].
    now rewrite str_snoc_cons.
Qed.

(** ** The keyword patterns *)

Lemma exec_lits_inv :
  forall w c kont st st',
    exec (lits c w) kont st = Some st' ->
    exists r,
      rest st = (String c w ++ r)%string /\
      kont (mkState (matched st ++ String c w) (Some (last_char c w)) r)
      = Some st'.
Proof.
  induction w as [|c' w IH]; intros c kont [m p s] st' E; cbn in E.
  - destruct s as [|x s]; [discriminate |].
    destruct (Ascii.eqb c x) eqn:Ex; [| discriminate].
    apply Ascii.eqb_eq in Ex. subst x. exists s. now split.
  - destruct s as [|x s]; [discriminate |].
    destruct (Ascii.eqb c x) eqn:Ex; [| discriminate].
    apply Ascii.eqb_eq in Ex. subst x.
    apply IH in E. destruct E as (r & Hr & Hk). cbn in Hr, Hk. subst s.
    exists r. split; [reflexivity |]. cbn [matched last_char].
    now rewrite str_snoc_cons in Hk.
Qed.

(** A match of [\b] word [\b]: the word is there, between two word
    boundaries. *)
Lemma exec_bounded_word_inv c w kont st st' :
  exec (Seq WordBoundary (Seq (lits c w) WordBoundary)) kont st = Some st' ->
  word_boundary st = true /\
  exists r,
    rest st = (String c w ++ r)%string /\
    word_boundary
      (mkState (matched st ++ String c w) (Some (last_char c w)) r) = true /\
    kont (mkState (matched st ++ String c w) (Some (last_char c w)) r)
    = Some st'.
Proof.
  cbn [exec]. intros E.
  destruct (word_boundary st); [| discriminate]. split; [reflexivity |].
  apply exec_lits_inv in E. destruct E as (r & Hr & Hk). cbn [exec] in Hk.
  exists r. split; [exact Hr |].
  destruct (word_boundary _); [now split | discriminate].
Qed.
Lemma last_char_all (f : ascii -> bool) :
  forall w c, all_in f (String c w) = true -> f (last_char c w) = true.
Proof.
  unfold all_in. induction w as [|c' w IH]; intros c H;
    cbn [list_ascii_of_string forallb] in H; apply andb_prop in H.
  - now destruct H.
  - destruct H as [_ H]. cbn [last_char]. now apply IH.
Qed.

(** Where a keyword pattern matches, the keyword is the whole run of word
    characters there. *)
Lemma bounded_word_is_run c w p s st :
  all_in CharClass.is_word (String c w) = true ->
  exec (Seq WordBoundary (Seq (lits c w) WordBoundary))
       (accept_search false) (mkState "" p s) = Some st ->
  CharClass.is_word c = true /\
  exists s', s = String c s' /\
             (matched st, rest st) = span CharClass.is_word s.
Proof.
  intros Hw E. apply exec_bounded_word_inv in E.
  destruct E as (_ & r & Hr & Hb & Hk). cbn [rest matched append] in *.
  injection Hk as <-. cbn [matched rest].
  assert (Hc : CharClass.is_word c = true).
  { unfold all_in in Hw. cbn in Hw. now apply andb_prop in Hw. }
  split; [exact Hc |]. exists (w ++ r)%string. split; [exact Hr |].
  subst s. change (String c (w ++ r)) with (String c w ++ r)%string.
  rewrite span_prefix; [reflexivity | exact Hw |].
  unfold word_boundary in Hb. cbn [prev rest] in Hb.
  rewrite (last_char_all _ _ _ Hw) in Hb.
  destruct r as [|x r]; [exact I |]. now destruct (CharClass.is_word x).
Qed.

(** The match of the token pattern at a position is the token of
    [token_at], whatever the character before the position. *)
Lemma match_here_token_at p s :
  match match_here token_regex false p s with
  | Some st => Some (matched st, rest st)
  | None => None
  end = token_at s.
Proof.
  destruct s as [|c s].
  - destruct (match_here token_regex false p "") as [st|] eqn:E; [| reflexivity].
    apply RegexFacts.match_here_token in E. destruct E as [Ht He].
    destruct (matched st); simpl in *; discriminate.
  - unfold match_here, token_regex. cbn [exec].
    destruct (exec re_def _ _) as [st|] eqn:Ed.
    { apply bounded_word_is_run in Ed; [| reflexivity].
      destruct Ed as (Hc & s' & Hs & ->). injection Hs as -> _.
      cbn [token_at]. now rewrite Hc. }
    destruct (exec re_print _ _) as [st|] eqn:Ep.
    { apply bounded_word_is_run in Ep; [| reflexivity].
      destruct Ep as (Hc & s' & Hs & ->). injection Hs as -> _.
      cbn [token_at]. now rewrite Hc. }
    clear Ed Ep. cbn [matched rest token_at].
    destruct (CharClass.is_word c) eqn:Hw.
    { destruct (@plus_greedy_span Word (String c s) ""%string c s eq_refl Hw)
        as (q & ->).
      cbn [matched rest append in_class].
      now rewrite <- surjective_pairing. }
    rewrite (@plus_greedy_none Word _ _ _ _ Hw).
    rewrite (@plus_greedy_none Digit _ _ _ _ (digit_word _ Hw)).
    unfold re_string. cbn [exec rest matched].
    destruct (Ascii.eqb dquote c) eqn:Eq.
    { apply eqb_dquote in Eq. subst c.
      rewrite star_lazy_close_quote. unfold advance. cbn [rest matched append].
      destruct (close_quote s) as [[a b]|]; [reflexivity |].
      rewrite (@plus_greedy_none Space _ _ _ _ (proj1 (proj2 dquote_classes))).
      destruct (@plus_greedy_span NotWordSpace (String dquote s) ""%string
                  dquote s eq_refl eq_refl) as (q & ->).
      cbn [matched rest append in_class].
      now rewrite <- surjective_pairing. }
    destruct (CharClass.is_space c) eqn:Hs.
    { destruct (@plus_greedy_span Space (String c s) ""%string c s eq_refl Hs)
        as (q & ->).
      cbn [matched rest append in_class].
      now rewrite <- surjective_pairing. }
    rewrite (@plus_greedy_none Space _ _ _ _ Hs).
    assert (Hp : in_class NotWordSpace c = true)
      by (cbn; unfold CharClass.is_punct; now rewrite Hw, Hs).
    destruct (@plus_greedy_span NotWordSpace (String c s) ""%string c s
                eq_refl Hp) as (q & ->).
    cbn [matched rest append in_class].
    now rewrite <- surjective_pairing.
Qed.

(** A token of [token_at] is not empty, and with what follows it makes up
    the text. *)
Lemma token_at_split s a r :
  token_at s = Some (a, r) -> (a ++ r)%string = s /\ empty a = false.
Proof.
  intros E. rewrite <- (match_here_token_at None) in E.
  destruct (match_here token_regex false None s) as [st|] eqn:Em;
    [| discriminate].
  injection E as <- <-. now apply RegexFacts.match_here_token in Em.
Qed.

Lemma regex_search_token_at p s :
  match regex_search token_regex p s with
  | Some st => Some (matched st, rest st)
  | None => None
  end = token_at s.
Proof.
  destruct s as [|c s].
  - now rewrite RegexFacts.regex_search_token_nil.
  - cbn [regex_search]. rewrite <- (match_here_token_at p).
    destruct (match_here token_regex false p (String c s)) eqn:E;
      [reflexivity |].
    now apply RegexFacts.token_regex_total in E.
Qed.

(** ** [regex_match] on the patterns of [classify] *)

Lemma regex_match_keyword (s : string) :
  regex_match s keyword_regex = (String.eqb s "def" || String.eqb s "print")%bool.
Proof.
  destruct (regex_match s keyword_regex) eqn:E.
  - unfold regex_match, keyword_regex in E. cbn [exec] in E. symmetry.
    destruct (exec re_def accept_all _) as [st|] eqn:Ed.
    + apply exec_bounded_word_inv in Ed. destruct Ed as (_ & r & Hr & _ & Hk).
      cbn [rest] in Hr. unfold accept_all in Hk. cbn [rest] in Hk.
      destruct r; [| discriminate]. subst s. reflexivity.
    + destruct (exec re_print accept_all _) as [st|] eqn:Ep; [| discriminate].
      apply exec_bounded_word_inv in Ep. destruct Ep as (_ & r & Hr & _ & Hk).
      cbn [rest] in Hr. unfold accept_all in Hk. cbn [rest] in Hk.
      destruct r; [| discriminate]. subst s. reflexivity.
  - symmetry. apply orb_false_iff. split; apply String.eqb_neq; intros ->;
      vm_compute in E; discriminate.
Qed.

Lemma regex_match_plus (k : cclass) (s : string) :
  regex_match s (Plus k) = (negb (empty s) && all_in (in_class k) s)%bool.
Proof.
  unfold regex_match. cbn [exec matched rest].
  destruct (plus_greedy k accept_all "" s) as [st|] eqn:E.
  - pose proof (plus_greedy_accept_all_sound _ _ _ E) as Ha.
    unfold all_in. rewrite Ha. destruct s; [discriminate | reflexivity].
  - destruct s as [|c s]; [reflexivity |]. cbn [empty negb andb].
    destruct (all_in (in_class k) (String c s)) eqn:Ha; [| reflexivity].
    exfalso. revert E.
    apply plus_greedy_accept_all_complete; [discriminate | exact Ha].
Qed.

Lemma star_lazy_ends_quote :
  forall s m p,
    match star_lazy AnyChar (exec (Lit dquote) accept_all) m p s with
    | Some _ => true
    | None => false
    end = ends_quote s.
Proof.
  induction s as [|c s IH]; intros m p; [reflexivity |].
  cbn [star_lazy ends_quote exec rest matched in_class].
  destruct (Ascii.eqb dquote c) eqn:Eq.
  - unfold accept_all at 1. cbn [advance rest].
    destruct s as [|c' s']; [reflexivity |]. cbn [empty andb orb].
    apply eqb_dquote in Eq. subst c.
    rewrite (proj2 (proj2 (proj2 dquote_classes))). apply IH.
  - cbn [andb orb]. destruct (CharClass.is_any c); [apply IH | reflexivity].
Qed.

Lemma regex_match_string (s : string) : regex_match s re_string = quoted s.
Proof.
  unfold regex_match, re_string. cbn [exec rest matched].
  destruct s as [|c s]; [reflexivity |]. cbn [quoted].
  destruct (Ascii.eqb dquote c); [| reflexivity].
  cbn [andb]. unfold advance. cbn [matched prev rest]. apply star_lazy_ends_quote.
Qed.

Lemma all_digit_word (s : string) :
  all_in CharClass.is_word s = false -> all_in CharClass.is_digit s = false.
Proof.
  unfold all_in. induction (list_ascii_of_string s) as [|c l IH];
    [discriminate |].
  cbn [forallb]. intros H. apply andb_false_iff in H.
  apply andb_false_iff. destruct H as [H | H]; [left | right; now apply IH].
  now apply digit_word.
Qed.

(** The chain of [regex_match] tests decides what [classify_direct] reads
    off the characters. *)
Lemma classify_is_direct (s : string) : classify s = classify_direct s.
Proof.
  unfold classify, classify_direct.
  rewrite regex_match_keyword, !regex_match_plus, regex_match_string.
  change (in_class Word) with CharClass.is_word.
  change (in_class Digit) with CharClass.is_digit.
  change (in_class Space) with CharClass.is_space.
  destruct (String.eqb s "def" || String.eqb s "print"); [reflexivity |].
  destruct (empty s); cbn [negb andb]; [reflexivity |].
  destruct (all_in CharClass.is_word s) eqn:Hw; [reflexivity |].
  now rewrite (all_digit_word _ Hw).
Qed.

(** ** [tokenize] and the direct lexer *)

Lemma tokenize_loop_lex (n : nat) :
  forall s p b, String.length s <= n ->
    tokenize_loop (S n)
      (match regex_search token_regex p s with
       | Some st => Some (mkIter st b)
       | None => None
       end) = Some (lex_loop n s).
Proof.
  induction n as [|n IH]; intros s p b Hlen.
  - destruct s; [| simpl in Hlen; lia].
    now rewrite RegexFacts.regex_search_token_nil.
  - destruct s as [|c s].
    { now rewrite RegexFacts.regex_search_token_nil. }
    pose proof (regex_search_token_at p (String c s)) as Hat.
    destruct (RegexFacts.regex_search_token_cons p c s) as (st & Hs & Ht & He).
    rewrite Hs in Hat |- *. symmetry in Hat.
    cbn [lex_loop]. rewrite Hat.
    change (tokenize_loop (S (S n)) (Some (mkIter st b)))
      with (match tokenize_loop (S n) (next_match token_regex (mkIter st b)) with
            | Some tokens =>
                Some (mkToken (classify (matched st)) (matched st) :: tokens)
            | None => None
            end).
    unfold next_match. cbn [it_match]. rewrite He.
    rewrite IH, classify_is_direct; [reflexivity |].
    apply (f_equal String.length) in Ht. rewrite str_length_app in Ht.
    simpl in Ht, Hlen. destruct (matched st); simpl in *; [discriminate | lia].
Qed.

Lemma tokenize_is_lex (code : string) : tokenize code = Some (lex code).
Proof. unfold tokenize, first_match, lex. now apply tokenize_loop_lex. Qed.

Lemma lex_loop_nonempty (n : nat) :
  forall s, Forall (fun t => empty (tok_value t) = false) (lex_loop n s) /\
            List.length (lex_loop n s) <= String.length s.
Proof.
  induction n as [|n IH]; intros s; cbn [lex_loop].
  - split; [constructor | simpl; lia].
  - destruct (token_at s) as [[a r]|] eqn:E; [| split; [constructor | simpl; lia]].
    apply token_at_split in E. destruct E as [<- He].
    destruct (IH r) as [Hf Hl]. split.
    + constructor; [exact He | exact Hf].
    + rewrite str_length_app. destruct a; [discriminate |]. simpl. lia.
Qed.


(** X1. [tokenize] equals the direct lexer [lex]: from left to right, each
    token is a maximal run of word characters, a quoted string up to the
    first closing quote on its line, a maximal run of white space or a
    maximal run of other characters, and its type is read off its
    characters by [classify_direct]. *)
Theorem tokenize_refines_lex (code : string) :
  tokenize code = Some (lex code) /\
  (forall p s,
      match regex_search token_regex p s with
      | Some st => Some (matched st, rest st)
      | None => None
      end = token_at s).
Proof.
  split; [apply tokenize_is_lex | intros p s; apply regex_search_token_at].
Qed.

(** X2. The chain of [regex_match] tests of [tokenize] gives a text the type
    that [classify_direct] reads off its characters; in particular the type
    is KEYWORD exactly for the texts [def] and [print], and never NUMBER nor
    UNKNOWN. *)
Theorem classify_reads_characters (token_str : string) :
  classify token_str = classify_direct token_str /\
  (classify token_str = KEYWORD <->
   token_str = "def"%string \/ token_str = "print"%string) /\
  classify token_str <> NUMBER /\ classify token_str <> UNKNOWN.
Proof.
  rewrite classify_is_direct. unfold classify_direct. repeat split.
  - intros H.
    destruct (String.eqb_spec token_str "def"); [now left |].
    destruct (String.eqb_spec token_str "print"); [now right |].
    cbn [orb] in H. revert H.
    destruct (negb (empty token_str) && all_in CharClass.is_word token_str);
      [discriminate |].
    destruct (quoted token_str); [discriminate |].
    destruct (negb (empty token_str) && all_in CharClass.is_space token_str);
      discriminate.
  - intros [-> | ->]; reflexivity.
  - repeat match goal with |- context [if ?b then _ else _] => destruct b end;
      discriminate.
  - repeat match goal with |- context [if ?b then _ else _] => destruct b end;
      discriminate.
Qed.

(** X3. No token of [tokenize] has an empty text, so there are at most as
    many tokens as the input has characters. *)
Theorem tokenize_tokens_not_empty (code : string) :
  exists tokens,
    tokenize code = Some tokens /\
    Forall (fun t => tok_value t <> ""%string) tokens /\
    List.length tokens <= String.length code.
Proof.
  exists (lex code). split; [apply tokenize_is_lex |].
  destruct (lex_loop_nonempty (String.length code) code) as [Hf Hl].
  split; [| exact Hl].
  unfold lex. eapply Forall_impl; [| exact Hf].
  intros t Ht He. cbv beta in Ht. rewrite He in Ht. discriminate.
Qed.

(** ** Runs are maximal *)

Lemma span_rest (f : ascii -> bool) (s : string) :
  starts_with f (snd (span f s)) = false.
Proof.
  induction s as [|c s IH]; [reflexivity |]. cbn [span].
  destruct (f c) eqn:Hc.
  - destruct (span f s) as [a b]. exact IH.
  - cbn. exact Hc.
Qed.

Lemma starts_with_app (f : ascii -> bool) (a r : string) :
  empty a = false -> starts_with f (a ++ r) = starts_with f a.
Proof. now destruct a. Qed.

Lemma starts_with_all (f : ascii -> bool) (a : string) :
  empty a = false -> all_in f a = true -> starts_with f a = true.
Proof.
  destruct a as [|c a]; [discriminate |]. intros _ H.
  unfold all_in in H. cbn in H. now apply andb_prop in H.
Qed.

Lemma all_starts_with (f : ascii -> bool) (a : string) :
  starts_with f a = false -> (negb (empty a) && all_in f a)%bool = false.
Proof.
  destruct a as [|c a]; [reflexivity |]. cbn [starts_with]. intros H.
  unfold all_in. cbn. now rewrite H.
Qed.

(** A token that begins with a word character is the run of word
    characters; one that begins with white space is the run of white
    space. *)
Lemma token_at_word s a r :
  token_at s = Some (a, r) -> starts_with CharClass.is_word a = true ->
  span CharClass.is_word s = (a, r).
Proof.
  intros E Hw. destruct (token_at_split _ E) as [Hs He].
  rewrite <- (starts_with_app _ _ r He), Hs in Hw.
  destruct s as [|c s]; [discriminate |]. cbn in Hw.
  cbn [token_at] in E. rewrite Hw in E. congruence.
Qed.

Lemma token_at_space s a r :
  token_at s = Some (a, r) -> starts_with CharClass.is_space a = true ->
  span CharClass.is_space s = (a, r).
Proof.
  intros E Hw. destruct (token_at_split _ E) as [Hs He].
  rewrite <- (starts_with_app _ _ r He), Hs in Hw.
  destruct s as [|c s]; [discriminate |]. cbn in Hw.
  cbn [token_at] in E. rewrite (space_not_word _ Hw), Hw in E.
  destruct (Ascii.eqb dquote c) eqn:Eq; [| congruence].
  apply eqb_dquote in Eq. subst c. discriminate.
Qed.

Lemma word_token_starts a :
  word_token (mkToken (classify_direct a) a) = true ->
  starts_with CharClass.is_word a = true.
Proof.
  unfold word_token, classify_direct. cbn [tok_type].
  destruct (String.eqb_spec a "def"); [subst; reflexivity |].
  destruct (String.eqb_spec a "print"); [subst; reflexivity |].
  cbn [orb].
  destruct (negb (empty a) && all_in CharClass.is_word a) eqn:H.
  - intros _. apply andb_prop in H. destruct H as [He Ha].
    apply starts_with_all; [now apply negb_true_iff | exact Ha].
  - destruct (quoted a); [discriminate |].
    destruct (negb (empty a) && all_in CharClass.is_space a); discriminate.
Qed.

Lemma space_token_starts a :
  space_token (mkToken (classify_direct a) a) = true ->
  starts_with CharClass.is_space a = true.
Proof.
  unfold space_token, classify_direct. cbn [tok_type].
  destruct (String.eqb a "def" || String.eqb a "print"); [discriminate |].
  destruct (negb (empty a) && all_in CharClass.is_word a); [discriminate |].
  destruct (quoted a); [discriminate |].
  destruct (negb (empty a) && all_in CharClass.is_space a) eqn:H;
    [| discriminate].
  intros _. apply andb_prop in H. destruct H as [He Ha].
  apply starts_with_all; [now apply negb_true_iff | exact Ha].
Qed.

(** Two tokens in a row are not both word tokens, and not both white
    space. *)
Lemma token_at_twice s a r a' r' :
  token_at s = Some (a, r) -> token_at r = Some (a', r') ->
  (word_token (mkToken (classify_direct a) a) &&
   word_token (mkToken (classify_direct a') a') = false)%bool /\
  (space_token (mkToken (classify_direct a) a) &&
   space_token (mkToken (classify_direct a') a') = false)%bool.
Proof.
  intros E E'. destruct (token_at_split _ E') as [Hs' He']. split.
  - destruct (word_token (mkToken (classify_direct a) a)) eqn:H1;
      [| reflexivity].
    destruct (word_token (mkToken (classify_direct a') a')) eqn:H2;
      [| reflexivity].
    apply word_token_starts in H1, H2.
    pose proof (span_rest CharClass.is_word s) as Hr.
    rewrite (token_at_word _ E H1) in Hr. cbn [snd] in Hr.
    rewrite <- Hs', (starts_with_app _ _ _ He') in Hr. congruence.
  - destruct (space_token (mkToken (classify_direct a) a)) eqn:H1;
      [| reflexivity].
    destruct (space_token (mkToken (classify_direct a') a')) eqn:H2;
      [| reflexivity].
    apply space_token_starts in H1, H2.
    pose proof (span_rest CharClass.is_space s) as Hr.
    rewrite (token_at_space _ E H1) in Hr. cbn [snd] in Hr.
    rewrite <- Hs', (starts_with_app _ _ _ He') in Hr. congruence.
Qed.

Lemma lex_loop_adjacent :
  forall pre n s t1 t2 post,
    lex_loop n s = pre ++ t1 :: t2 :: post ->
    (word_token t1 && word_token t2 = false)%bool /\
    (space_token t1 && space_token t2 = false)%bool.
Proof.
  induction pre as [|x pre IH]; intros n s t1 t2 post E.
  - destruct n as [|n]; [discriminate |]. cbn [lex_loop app] in E.
    destruct (token_at s) as [[a r]|] eqn:Ea; [| discriminate].
    injection E as <- E.
    destruct n as [|n]; [discriminate |]. cbn [lex_loop] in E.
    destruct (token_at r) as [[a' r']|] eqn:Ea'; [| discriminate].
    injection E as <- _. eapply token_at_twice; eassumption.
  - destruct n as [|n]; [discriminate |]. cbn [lex_loop app] in E.
    destruct (token_at s) as [[a r]|]; [| discriminate].
    injection E as _ E. eapply IH. exact E.
Qed.

(** X4. In the result of [tokenize] two tokens in a row are never both
    word tokens (KEYWORD or IDENTIFIER) and never both WHITESPACE: a run of
    word characters or of white space is never cut in two. *)
Theorem tokenize_runs_not_split (code : string) pre t1 t2 post :
  tokenize code = Some (pre ++ t1 :: t2 :: post) ->
  (word_token t1 && word_token t2 = false)%bool /\
  (space_token t1 && space_token t2 = false)%bool.
Proof.
  rewrite tokenize_is_lex. intros [= E]. unfold lex in E.
  eapply lex_loop_adjacent. exact E.
Qed.

Lemma tokenize_runs_not_split_witness :
  tokenize "def  x1" =
    Some ([mkToken KEYWORD "def"] ++
          mkToken WHITESPACE "  " :: mkToken IDENTIFIER "x1" :: []) /\
  (word_token (mkToken WHITESPACE "  ") && word_token (mkToken IDENTIFIER "x1")
   = false)%bool /\
  (space_token (mkToken WHITESPACE "  ") && space_token (mkToken IDENTIFIER "x1")
   = false)%bool.
Proof.
  split; [reflexivity |].
  apply (@tokenize_runs_not_split "def  x1" [mkToken KEYWORD "def"]
           (mkToken WHITESPACE "  ") (mkToken IDENTIFIER "x1") []).
  reflexivity.
Defined.

(** X5. A text made of word characters only is a single token, of type
    KEYWORD when it is [def] or [print] and IDENTIFIER otherwise (digits
    included); a text made of white space only is a single WHITESPACE
    token. *)
Theorem tokenize_single_run (code : string) :
  code <> ""%string ->
  (all_in CharClass.is_word code = true ->
   tokenize code =
   Some [mkToken (if (String.eqb code "def" || String.eqb code "print")%bool
                  then KEYWORD else IDENTIFIER) code]) /\
  (all_in CharClass.is_space code = true ->
   tokenize code = Some [mkToken WHITESPACE code]).
Proof.
  intros Hne. rewrite tokenize_is_lex. unfold lex.
  destruct code as [|c s]; [easy |]. cbn [String.length lex_loop].
  assert (Hnil : lex_loop (String.length s) "" = [])
    by now destruct (String.length s).
  split; intros Ha.
  - pose proof (starts_with_all CharClass.is_word (String c s) eq_refl Ha) as Hc.
    cbn [starts_with] in Hc. cbn [token_at]. rewrite Hc, (span_all _ _ Ha), Hnil.
    unfold classify_direct. rewrite Ha. cbn [empty negb andb].
    now destruct (String.eqb (String c s) "def" || String.eqb (String c s) "print").
  - pose proof (starts_with_all CharClass.is_space (String c s) eq_refl Ha) as Hc.
    cbn [starts_with] in Hc. cbn [token_at].
    rewrite (space_not_word _ Hc), Hc.
    destruct (Ascii.eqb dquote c) eqn:Eq.
    { apply eqb_dquote in Eq. subst c. discriminate. }
    rewrite (span_all _ _ Ha), Hnil. unfold classify_direct.
    rewrite (all_starts_with CharClass.is_word (String c s)
               (space_not_word _ Hc)).
    rewrite Ha. cbn [empty negb andb quoted]. rewrite Eq. cbn [andb].
    destruct (String.eqb_spec (String c s) "def") as [E | _];
      [rewrite E in Ha; discriminate |].
    destruct (String.eqb_spec (String c s) "print") as [E | _];
      [rewrite E in Ha; discriminate |].
    reflexivity.
Qed.

Lemma tokenize_single_run_witness :
  "2024"%string <> ""%string /\
  all_in CharClass.is_word "2024" = true /\
  tokenize "2024" = Some [mkToken IDENTIFIER "2024"].
Proof.
  split; [discriminate |]. split; [reflexivity |].
  apply (proj1 (@tokenize_single_run "2024" ltac:(discriminate))).
  reflexivity.
Defined.


(** * More about the tree builder *)

Lemma run_group tokens :
  forall root v ch,
    keywords_named tokens = true -> empty v = false ->
    parse_finish (fold_left parse_step tokens (root, mkNode v ch)) =
    mkNode (node_value root) (node_children root ++ group v ch tokens).
Proof.
  induction tokens as [|t ts IH]; intros root v ch Hk Hv.
  - cbn. now rewrite Hv.
  - cbn [keywords_named forallb] in Hk. apply andb_prop in Hk.
    destruct Hk as [Ht Hk]. cbn [fold_left group]. unfold parse_step at 2.
    unfold is_keyword in *. cbn [node_value].
    destruct (TokenType_eqb (tok_type t) KEYWORD).
    + rewrite Hv. rewrite IH; [| exact Hk | now apply negb_true_iff in Ht].
      cbn. now rewrite <- app_assoc.
    + unfold push_back at 1. cbn [node_value node_children]. now apply IH.
Qed.

Lemma keywords_named_app l1 l2 :
  keywords_named (l1 ++ l2) = (keywords_named l1 && keywords_named l2)%bool.
Proof. apply forallb_app. Qed.

(** The tree of a sequence with a keyword: the constructs of what follows
    the first keyword, the tokens before it being the first children of the
    first construct. *)
Lemma parse_group pre kw rest :
  no_keyword pre = true -> is_keyword kw = true ->
  keywords_named (kw :: rest) = true ->
  parse (pre ++ kw :: rest) =
  mkNode "" (group (tok_value kw) (map leaf pre) rest).
Proof.
  intros Hp Hkw Hk. unfold parse.
  rewrite fold_left_app, (run_no_keyword _ Hp). cbn [fold_left].
  unfold parse_step at 2. unfold is_keyword in Hkw. rewrite Hkw.
  cbn [empty_node node_value node_children empty app].
  cbn [keywords_named forallb] in Hk. apply andb_prop in Hk.
  destruct Hk as [Hn Hk]. unfold is_keyword in Hn. rewrite Hkw in Hn.
  cbn in Hn. apply negb_true_iff in Hn.
  now rewrite run_group.
Qed.

Lemma split_first_keyword (tokens : list Token) :
  no_keyword tokens = true \/
  exists pre kw rest,
    tokens = pre ++ kw :: rest /\ no_keyword pre = true /\
    is_keyword kw = true.
Proof.
  induction tokens as [|t ts IH]; [now left |].
  destruct (is_keyword t) eqn:Ht.
  - right. exists [], t, ts. now repeat split.
  - destruct IH as [Hn | (pre & kw & rest & -> & Hp & Hk)].
    + left. cbn. now rewrite Ht.
    + right. exists (t :: pre), kw, rest. repeat split; [| exact Hk].
      cbn. now rewrite Ht.
Qed.

Lemma filter_no_keyword pre :
  no_keyword pre = true -> filter is_keyword pre = [].
Proof.
  induction pre as [|t ts IH]; [reflexivity |]. cbn. intros H.
  apply andb_prop in H. destruct H as [Ht H].
  apply negb_true_iff in Ht. rewrite Ht. now apply IH.
Qed.

Lemma group_labels ts :
  forall v ch,
    map node_value (group v ch ts) = v :: map tok_value (filter is_keyword ts).
Proof.
  induction ts as [|t ts IH]; intros v ch; [reflexivity |].
  cbn [group filter]. destruct (is_keyword t); [| apply IH].
  cbn [map node_value]. now rewrite IH.
Qed.

Lemma group_flatten ts :
  forall v ch,
    flat_map (fun c => node_value c :: map node_value (node_children c))
             (group v ch ts) =
    v :: map node_value ch ++ map tok_value ts.
Proof.
  induction ts as [|t ts IH]; intros v ch.
  - cbn. now rewrite !app_nil_r.
  - cbn [group]. destruct (is_keyword t).
    + cbn [flat_map node_value node_children app map]. rewrite IH.
      reflexivity.
    + rewrite IH, map_app. cbn [map app leaf node_value].
      now rewrite <- app_assoc.
Qed.

(** The loop keeps labelled constructs with leaves under [root], and
    leaves under [current]. *)
Lemma run_two_levels tokens :
  forall root current,
    Forall (fun c => empty (node_value c) = false /\
                     Forall (fun g => node_children g = []) (node_children c))
           (node_children root) ->
    Forall (fun g => node_children g = []) (node_children current) ->
    Forall (fun c => empty (node_value c) = false /\
                     Forall (fun g => node_children g = []) (node_children c))
           (node_children
              (parse_finish (fold_left parse_step tokens (root, current)))).
Proof.
  induction tokens as [|t ts IH]; intros root current Hr Hc.
  - cbn. destruct (empty (node_value current)) eqn:He; cbn; [exact Hr |].
    apply Forall_app. split; [exact Hr |]. now repeat constructor.
  - cbn [fold_left]. unfold parse_step at 2.
    destruct (TokenType_eqb (tok_type t) KEYWORD).
    + destruct (empty (node_value current)) eqn:He.
      * apply IH; [exact Hr | exact Hc].
      * apply IH; [| constructor]. cbn. apply Forall_app.
        split; [exact Hr |]. now repeat constructor.
    + apply IH; [exact Hr |]. cbn. apply Forall_app. split; [exact Hc |].
      now repeat constructor.
Qed.

(** X6. Whatever the tokens, the tree of [parse] has two levels below the
    root: every direct child has a label that is not empty, and every child
    of a direct child is a leaf. *)
Theorem parse_two_levels (tokens : list Token) :
  Forall (fun c => node_value c <> ""%string /\
                   Forall (fun g => node_children g = []) (node_children c))
         (node_children (parse tokens)).
Proof.
  unfold parse.
  eapply Forall_impl; [| apply run_two_levels; constructor].
  intros c [He Hl]. split; [| exact Hl]. intros E. now rewrite E in He.
Qed.

Lemma parse_labels (tokens : list Token) :
  keywords_named tokens = true ->
  map node_value (node_children (parse tokens)) =
  map tok_value (filter is_keyword tokens).
Proof.
  intros Hk.
  destruct (split_first_keyword tokens) as [Hn | (pre & kw & rest & -> & Hp & Hkw)].
  - rewrite (@filter_no_keyword tokens Hn). unfold parse.
    now rewrite (run_no_keyword _ Hn).
  - rewrite keywords_named_app in Hk. apply andb_prop in Hk.
    rewrite (@parse_group pre kw rest Hp Hkw (proj2 Hk)). cbn [node_children].
    rewrite group_labels, filter_app, (@filter_no_keyword pre Hp).
    cbn [app filter]. now rewrite Hkw.
Qed.

(** X7. When every KEYWORD token has a text, the direct children of the
    tree are labelled, in order, with the texts of the KEYWORD tokens: one
    construct for each keyword. *)
Theorem parse_one_construct_per_keyword (tokens : list Token) :
  keywords_named tokens = true ->
  map node_value (node_children (parse tokens)) =
  map tok_value (filter is_keyword tokens).
Proof.
  intros Hk.
  destruct (split_first_keyword tokens)
    as [Hn | (pre & kw & rest & -> & Hp & Hkw)].
  - rewrite (@filter_no_keyword tokens Hn). unfold parse.
    now rewrite (run_no_keyword _ Hn).
  - rewrite keywords_named_app in Hk. apply andb_prop in Hk.
    destruct Hk as [_ Hk].
    rewrite (@parse_group pre kw rest Hp Hkw Hk). cbn [node_children].
    rewrite group_labels, filter_app, (@filter_no_keyword pre Hp).
    cbn [app filter]. now rewrite Hkw.
Qed.

Lemma parse_one_construct_per_keyword_witness :
  let tokens := [mkToken IDENTIFIER "x"; mkToken KEYWORD "def";
                 mkToken IDENTIFIER "f"; mkToken KEYWORD "print"] in
  keywords_named tokens = true /\
  map node_value (node_children (parse tokens)) =
  map tok_value (filter is_keyword tokens).
Proof.
  split; [reflexivity |].
  apply (@parse_one_construct_per_keyword
           [mkToken IDENTIFIER "x"; mkToken KEYWORD "def";
            mkToken IDENTIFIER "f"; mkToken KEYWORD "print"]).
  reflexivity.
Defined.

(** X8. No token is lost once there is a keyword: when every KEYWORD token
    has a text, the labels of the tree, construct after construct, are the
    text of the first keyword, then the texts of the tokens before it, then
    the texts of the tokens after it. For a sequence that begins with its
    first keyword they are the texts of the tokens, in order. *)
Theorem parse_keeps_every_token pre kw rest :
  no_keyword pre = true -> is_keyword kw = true ->
  keywords_named (kw :: rest) = true ->
  flatten (parse (pre ++ kw :: rest)) =
  tok_value kw :: map tok_value (pre ++ rest).
Proof.
  intros Hp Hkw Hk. rewrite (@parse_group pre kw rest Hp Hkw Hk).
  unfold flatten. cbn [node_children]. rewrite group_flatten.
  rewrite map_map. cbn [leaf node_value]. now rewrite map_app.
Qed.

Lemma parse_keeps_every_token_witness :
  let pre := @nil Token in
  let kw := mkToken KEYWORD "def" in
  let rest := [mkToken IDENTIFIER "f"; mkToken KEYWORD "print";
               mkToken OPERATOR "("] in
  no_keyword pre = true /\ is_keyword kw = true /\
  keywords_named (kw :: rest) = true /\
  flatten (parse (pre ++ kw :: rest)) = map tok_value (kw :: rest).
Proof.
  split; [reflexivity |]. split; [reflexivity |]. split; [reflexivity |].
  apply (@parse_keeps_every_token [] (mkToken KEYWORD "def")
           [mkToken IDENTIFIER "f"; mkToken KEYWORD "print";
            mkToken OPERATOR "("]); reflexivity.
Defined.


(** ** Constructs without child, and the rule of [checkSemantics] on the
    tokens *)







Lemma group_rejects ts :
  forall v ch,
    existsb rejects (group v ch ts) =
    (negb (construct_ok v ch ts) || negb (prints_ok ts))%bool.
Proof.
  induction ts as [|t ts IH]; intros v ch.
  - cbn [group existsb prints_ok]. unfold rejects, construct_ok.
    cbn [node_value node_children followed_by_quote].
    destruct (String.eqb v "print"); [| reflexivity].
    destruct ch as [|g ch]; [reflexivity |].
    now destruct (begins_with_dquote (node_value g)).
  - cbn [group prints_ok]. unfold is_print.
    destruct (is_keyword t) eqn:Ht.
    + cbn [existsb]. rewrite IH. unfold rejects, construct_ok.
      cbn [node_value node_children followed_by_quote andb]. rewrite Ht.
      cbn [negb andb].
      destruct (String.eqb v "print"), (String.eqb (tok_value t) "print"),
        (followed_by_quote ts), (prints_ok ts), ch as [|g ch];
        try reflexivity; now destruct (begins_with_dquote (node_value g)).
    + rewrite IH. unfold construct_ok.
      cbn [followed_by_quote andb]. rewrite Ht. cbn [negb andb].
      destruct ch as [|g ch]; reflexivity.
Qed.

(** X10. For a sequence that begins with a keyword and whose KEYWORD tokens
    all have a text, [checkSemantics] on the tree of [parse] passes exactly
    when every [print] keyword is directly followed by a token that is not
    a keyword and whose text begins with a double quote: white space or a
    parenthesis between [print] and the string makes it fail. *)
Theorem checkSemantics_after_parse (tokens : list Token) :
  starts_with_keyword tokens = true ->
  keywords_named tokens = true ->
  checkSemantics (parse tokens) = Some (prints_ok tokens).
Proof.
  intros Hs Hk. destruct tokens as [|kw rest]; [discriminate |].
  cbn in Hs. pose proof (@parse_group [] kw rest eq_refl Hs Hk) as E.
  cbn [app] in E. rewrite E. unfold checkSemantics. cbn [node_children map].
  rewrite checkSemantics_loop_existsb, group_rejects. f_equal.
  cbn [prints_ok]. unfold is_print, construct_ok. rewrite Hs. cbn [andb].
  destruct (String.eqb (tok_value kw) "print"), (followed_by_quote rest),
    (prints_ok rest); reflexivity.
Qed.

Lemma checkSemantics_after_parse_witness :
  let tokens := [mkToken KEYWORD "print"; mkToken OPERATOR "(";
                 mkToken STRING hello_literal; mkToken OPERATOR ")"] in
  starts_with_keyword tokens = true /\ keywords_named tokens = true /\
  checkSemantics (parse tokens) = Some false.
Proof.
  split; [reflexivity |]. split; [reflexivity |].
  apply (@checkSemantics_after_parse
           [mkToken KEYWORD "print"; mkToken OPERATOR "(";
            mkToken STRING hello_literal; mkToken OPERATOR ")"]);
    reflexivity.
Defined.

(** ** The two stages together *)

Lemma classify_direct_keyword a :
  classify_direct a = KEYWORD -> a = "def"%string \/ a = "print"%string.
Proof.
  unfold classify_direct.
  destruct (String.eqb_spec a "def"); [now left |].
  destruct (String.eqb_spec a "print"); [now right |]. cbn [orb].
  repeat match goal with |- context [if ?b then _ else _] => destruct b end;
    discriminate.
Qed.

Lemma is_keyword_type t : is_keyword t = true -> tok_type t = KEYWORD.
Proof. unfold is_keyword. now destruct (tok_type t). Qed.

Lemma lex_loop_keywords n :
  forall s t, In t (lex_loop n s) -> is_keyword t = true ->
              tok_value t = "def"%string \/ tok_value t = "print"%string.
Proof.
  induction n as [|n IH]; intros s t Hin Hk; [easy |].
  cbn [lex_loop] in Hin. destruct (token_at s) as [[a r]|]; [| easy].
  destruct Hin as [<- | Hin]; [| now apply (IH r)].
  apply is_keyword_type in Hk. cbn in *. now apply classify_direct_keyword.
Qed.

Lemma lex_keywords_named s : keywords_named (lex s) = true.
Proof.
  apply forallb_forall. intros t Hin.
  destruct (is_keyword t) eqn:Hk; [| reflexivity]. cbn [negb orb].
  destruct (lex_loop_keywords _ _ _ Hin Hk) as [-> | ->]; reflexivity.
Qed.

(** X11. In the tree built from the tokens of any text, every direct child
    is labelled [def] or [print]: the labels are the texts of the KEYWORD
    tokens, in order. The branches of [generateCode] for a [:] label and for
    any other label are never taken on such a tree. *)
Theorem pipeline_constructs_are_keywords (code : string) :
  exists tokens,
    tokenize code = Some tokens /\
    map node_value (node_children (parse tokens)) =
    map tok_value (filter is_keyword tokens) /\
    Forall (fun c => node_value c = "def"%string \/
                     node_value c = "print"%string)
           (node_children (parse tokens)).
Proof.
  exists (lex code). split; [apply tokenize_is_lex |].
  pose proof (parse_labels (lex code) (lex_keywords_named code)) as Hl.
  split; [exact Hl |].
  apply Forall_forall. intros c Hc.
  assert (Hv : In (node_value c)
                  (map tok_value (filter is_keyword (lex code))))
    by (rewrite <- Hl; now apply in_map).
  apply in_map_iff in Hv. destruct Hv as (t & <- & Ht).
  apply filter_In in Ht. destruct Ht as [Hin Hk].
  exact (lex_loop_keywords _ _ _ Hin Hk).
Qed.

(** * More about the generator *)

Lemma count_open_app (a b : string) :
  count_open (a ++ b) = count_open a + count_open b.
Proof. induction a as [|x a IH]; simpl; [reflexivity | rewrite IH; lia]. Qed.

Lemma count_open_append_values (gs : list Node) :
  count_open (append_values "" gs) =
  list_sum (map (fun g => count_open (node_value g)) gs).
Proof.
  induction gs as [|g gs IH]; [reflexivity |].
  change (append_values "" (g :: gs)) with (append_values (node_value g) gs).
  cbn [map]. rewrite list_sum_cons.
  now rewrite append_values_app, count_open_app, IH.
Qed.

Lemma generateCode_loop_opens (cs : list Node) :
  forall code,
    (forall child, In child cs ->
                   node_value child = "def"%string -> node_children child <> []) ->
    exists body,
      generateCode_loop cs code = Some (code ++ body)%string /\
      count_open body =
      List.length (filter (fun c => String.eqb (node_value c) "def") cs) +
      List.length (filter (fun c => String.eqb (node_value c) ":") cs) +
      list_sum (map label_opens cs).
Proof.
  induction cs as [|child cs IH]; intros code Hdef.
  - exists ""%string. now rewrite str_app_nil_r.
  - assert (Hcs : forall c, In c cs -> node_value c = "def"%string ->
                            node_children c <> [])
      by (intros c Hc; apply Hdef; now right).
    cbn [generateCode_loop map filter]. rewrite list_sum_cons.
    unfold label_opens at 1.
    destruct (String.eqb (node_value child) "def") eqn:Ed.
    { apply String.eqb_eq in Ed.
      destruct (node_children child) as [|g gs] eqn:Eg;
        [now destruct (Hdef child (or_introl eq_refl) Ed) |].
      rewrite Ed. cbn [at0 nth_error String.eqb Ascii.eqb Bool.eqb].
      destruct (IH (code ++ ("void " ++ node_value g ++ "() {" ++ nl))%string Hcs)
        as (body & -> & Hb).
      eexists. rewrite str_app_assoc. split; [reflexivity |].
      rewrite !count_open_app, Hb. cbn -[list_sum]. lia. }
    destruct (String.eqb (node_value child) "print") eqn:Ep.
    { apply String.eqb_eq in Ep. rewrite Ep.
      cbn [String.eqb Ascii.eqb Bool.eqb].
      rewrite append_values_app.
      destruct (IH ((code ++ "std::cout << ") ++
                    append_values "" (node_children child) ++
                    " << std::endl;" ++ nl)%string Hcs) as (body & Hg & Hb).
      rewrite <- !str_app_assoc in *. rewrite Hg.
      eexists. rewrite !str_app_assoc. split; [reflexivity |].
      rewrite !count_open_app, count_open_append_values, Hb.
      cbn -[list_sum]. lia. }
    destruct (String.eqb (node_value child) ":").
    { destruct (IH (code ++ " {" ++ nl)%string Hcs) as (body & -> & Hb).
      eexists. rewrite str_app_assoc. split; [reflexivity |].
      rewrite !count_open_app, Hb. cbn -[list_sum]. lia. }
    destruct (IH (code ++ node_value child)%string Hcs) as (body & -> & Hb).
    eexists. rewrite str_app_assoc. split; [reflexivity |].
    rewrite !count_open_app, Hb. lia.
Qed.

(** X12. When every [def] construct has a child, the output of
    [generateCode] has one opening brace for each direct child labelled
    [def] or [:], besides those inside the labels copied to it; as it has
    one closing brace of its own, it is balanced only for a tree with
    exactly one such child. *)
Theorem generateCode_opening_braces (node : Node) :
  defs_have_child node ->
  exists out,
    generateCode node = Some out /\
    count_open out =
    count_labelled "def" node + count_labelled ":" node +
    list_sum (map label_opens (node_children node)) /\
    count_close out = 1 + list_sum (map label_closes (node_children node)).
Proof.
  intros Hdef. unfold generateCode.
  destruct (generateCode_loop_opens (node_children node) ""%string Hdef)
    as (body & Hg & Hb).
  destruct (generateCode_loop_spec (node_children node) ""%string Hdef)
    as (body' & Hg' & Hb').
  rewrite Hg in Hg' |- *. injection Hg' as <-. cbn [append] in *.
  eexists. split; [reflexivity |]. split.
  - rewrite count_open_app, Hb. unfold count_labelled. cbn. lia.
  - rewrite count_close_app, Hb'. cbn -[list_sum]. lia.
Qed.

Lemma generateCode_opening_braces_witness :
  let tree :=
    mkNode "" [mkNode "def" [mkNode "f" []]; mkNode "def" [mkNode "g" []]] in
  defs_have_child tree /\
  exists out,
    generateCode tree = Some out /\
    count_open out = 2 /\ count_close out = 1.
Proof.
  assert (H : defs_have_child
                (mkNode "" [mkNode "def" [mkNode "f" []];
                            mkNode "def" [mkNode "g" []]])).
  { intros child [<- | [<- | []]] _; discriminate. }
  split; [exact H | exact (generateCode_opening_braces H)].
Defined.

(** ** The first version of [generateCode] *)

Lemma generateCode_draft_loop_spec (cs : list Node) :
  forall code,
    (forall child, In child cs ->
                   node_value child = "def"%string -> node_children child <> []) ->
    exists body,
      generateCode_draft_loop cs code = Some (code ++ body)%string /\
      count_close body =
      List.length cs + list_sum (map draft_label_closes cs).
Proof.
  induction cs as [|child cs IH]; intros code Hdef.
  - exists ""%string. now rewrite str_app_nil_r.
  - assert (Hcs : forall c, In c cs -> node_value c = "def"%string ->
                            node_children c <> [])
      by (intros c Hc; apply Hdef; now right).
    cbn [generateCode_draft_loop map List.length]. rewrite list_sum_cons.
    unfold draft_label_closes at 1.
    destruct (String.eqb (node_value child) "def") eqn:Ed.
    { apply String.eqb_eq in Ed.
      destruct (node_children child) as [|g gs] eqn:Eg;
        [now destruct (Hdef child (or_introl eq_refl) Ed) |].
      cbn [at0 nth_error].
      destruct (IH ((code ++ ("void " ++ node_value g ++ "() {" ++ nl)) ++ "}")%string
                   Hcs) as (body & -> & Hb).
      eexists. rewrite !str_app_assoc. split; [reflexivity |].
      rewrite !count_close_app, Hb. cbn -[list_sum]. lia. }
    destruct (String.eqb (node_value child) "print").
    { rewrite append_values_app.
      destruct (IH ((((code ++ "std::cout << ") ++
                      append_values "" (node_children child)) ++
                     " << std::endl;" ++ nl) ++ "}")%string Hcs)
        as (body & -> & Hb).
      eexists. rewrite !str_app_assoc. split; [reflexivity |].
      rewrite !count_close_app, count_close_append_values, Hb.
      cbn -[list_sum]. lia. }
    destruct (IH (code ++ "}")%string Hcs) as (body & -> & Hb).
    eexists. rewrite str_app_assoc. split; [reflexivity |].
    rewrite !count_close_app, Hb. cbn -[list_sum]. lia.
Qed.

Lemma generateCode_draft_loop_defined (cs : list Node) :
  forall code,
    generateCode_draft_loop cs code <> None ->
    forall child, In child cs ->
                  node_value child = "def"%string -> node_children child <> [].
Proof.
  induction cs as [|child cs IH]; intros code Hsome c Hin Hv; [easy |].
  cbn [generateCode_draft_loop] in Hsome.
  destruct Hin as [<- | Hin].
  - rewrite Hv in Hsome. cbn in Hsome.
    destruct (node_children child); [now cbn in Hsome | discriminate].
  - destruct (String.eqb (node_value child) "def").
    { destruct (at0 (node_children child)); [| easy]. eapply IH; eauto. }
    destruct (String.eqb (node_value child) "print"); eapply IH; eauto.
Qed.

(** X13. The first version of [generateCode] has a result exactly on the
    trees whose [def] constructs all have a child, as the final one; its
    output then has one closing brace for each direct child, besides those
    inside the labels copied to it. *)
Theorem generateCode_draft_brace_per_child (node : Node) :
  (generateCode_draft node <> None <-> defs_have_child node) /\
  (generateCode_draft node <> None <-> generateCode node <> None) /\
  (forall out, generateCode_draft node = Some out ->
     count_close out =
     List.length (node_children node) +
     list_sum (map draft_label_closes (node_children node))).
Proof.
  assert (Hiff : generateCode_draft node <> None <-> defs_have_child node).
  { unfold generateCode_draft. split.
    - intros H child Hin Hv.
      now apply (@generateCode_draft_loop_defined (node_children node) ""%string).
    - intros H.
      destruct (generateCode_draft_loop_spec (node_children node) ""%string H)
        as (body & -> & _). discriminate. }
  split; [exact Hiff |]. split.
  - rewrite Hiff. unfold generateCode. split.
    + intros H.
      destruct (generateCode_loop_spec (node_children node) ""%string H)
        as (body & -> & _). discriminate.
    + intros H child Hin Hv.
      destruct (generateCode_loop (node_children node) "") eqn:E; [| easy].
      apply (@generateCode_loop_defined (node_children node) ""%string);
        [congruence | exact Hin | exact Hv].
  - intros out E.
    assert (Hd : defs_have_child node) by (apply Hiff; congruence).
    unfold generateCode_draft in E.
    destruct (generateCode_draft_loop_spec (node_children node) ""%string Hd)
      as (body & Hg & Hb).
    rewrite Hg in E. injection E as <-. exact Hb.
Qed.

(** * Printing and the menu *)

Lemma printTree_unfold v cs depth :
  printTree (mkNode v cs) depth =
  ((spaces depth ++ v ++ nl) ++ printTree_children cs (depth + 2))%string.
Proof.
  reflexivity.
Qed.

Lemma token_lines_app l1 l2 :
  token_lines (l1 ++ l2) = (token_lines l1 ++ token_lines l2)%string.
Proof.
  induction l1 as [|t l1 IH]; [reflexivity |].
  cbn [app token_lines fold_right]. fold (token_lines (l1 ++ l2)).
  fold (token_lines l1). now rewrite IH, str_app_assoc.
Qed.

Lemma no_keyword_app l1 l2 :
  no_keyword (l1 ++ l2) = (no_keyword l1 && no_keyword l2)%bool.
Proof. apply forallb_app. Qed.

Lemma leaves_print pre :
  no_keyword pre = true ->
  printTree_children (map leaf pre) 4 = token_lines pre.
Proof.
  induction pre as [|t pre IH]; [reflexivity |]. intros H.
  cbn [no_keyword forallb] in H. apply andb_prop in H. destruct H as [Ht H].
  apply negb_true_iff in Ht.
  cbn [map printTree_children fold_right token_lines].
  fold (printTree_children (map leaf pre) 4). fold (token_lines pre).
  rewrite (IH H). unfold leaf at 1. rewrite printTree_unfold.
  unfold token_line. rewrite Ht. cbn [printTree_children fold_right].
  now rewrite str_app_nil_r.
Qed.

Lemma group_print ts :
  forall v pre,
    no_keyword pre = true ->
    printTree_children (group v (map leaf pre) ts) 2 =
    ((spaces 2 ++ v ++ nl) ++ token_lines pre ++ token_lines ts)%string.
Proof.
  induction ts as [|t ts IH]; intros v pre Hp.
  - cbn [group printTree_children fold_right token_lines].
    rewrite printTree_unfold, !str_app_nil_r. change (2 + 2) with 4.
    now rewrite (@leaves_print pre Hp).
  - cbn [group]. destruct (is_keyword t) eqn:Ht.
    + cbn [printTree_children fold_right].
      fold (printTree_children (group (tok_value t) [] ts) 2).
      pose proof (IH (tok_value t) [] eq_refl) as E. cbn [map] in E.
      rewrite E, printTree_unfold. change (2 + 2) with 4. rewrite (@leaves_print pre Hp).
      cbn [token_lines fold_right]. fold (token_lines ts).
      unfold token_line at 1. rewrite Ht.
      cbn [token_lines fold_right append]. now rewrite !str_app_assoc.
    + change [leaf t] with (map leaf [t]). rewrite <- map_app.
      rewrite IH.
      * rewrite token_lines_app. cbn [token_lines fold_right].
        fold (token_lines ts). now rewrite str_app_nil_r, !str_app_assoc.
      * rewrite no_keyword_app, Hp. cbn. now rewrite Ht.
Qed.

(** X14. For a sequence with a keyword, whose KEYWORD tokens all have a
    text, [printTree] on the tree of [parse] writes an empty line for the
    root and then one line for each token: the first keyword, the tokens
    before it, the tokens after it, a keyword being indented by two spaces
    and any other token by four. *)
Theorem printTree_after_parse pre kw rest :
  no_keyword pre = true -> is_keyword kw = true ->
  keywords_named (kw :: rest) = true ->
  printTree (parse (pre ++ kw :: rest)) 0 =
  (nl ++ token_line kw ++ token_lines pre ++ token_lines rest)%string.
Proof.
  intros Hp Hkw Hk. rewrite (@parse_group pre kw rest Hp Hkw Hk).
  rewrite printTree_unfold. change (0 + 2) with 2.
  rewrite (@group_print rest (tok_value kw) pre Hp).
  unfold token_line. rewrite Hkw. cbn [spaces append Nat.add].
  now rewrite !str_app_assoc.
Qed.

Lemma printTree_after_parse_witness :
  let pre := @nil Token in
  let kw := mkToken KEYWORD "def" in
  let rest := [mkToken IDENTIFIER "f"; mkToken KEYWORD "print"] in
  no_keyword pre = true /\ is_keyword kw = true /\
  keywords_named (kw :: rest) = true /\
  printTree (parse (pre ++ kw :: rest)) 0 =
  (nl ++ token_lines (kw :: rest))%string.
Proof.
  split; [reflexivity |]. split; [reflexivity |]. split; [reflexivity |].
  apply (@printTree_after_parse [] (mkToken KEYWORD "def")
           [mkToken IDENTIFIER "f"; mkToken KEYWORD "print"]); reflexivity.
Defined.

(** ** The menu *)

Lemma parse_value (tokens : list Token) : node_value (parse tokens) = ""%string.
Proof. unfold parse. now rewrite parse_finish_root_value, run_root_value. Qed.

Lemma lex_not_nil (s : string) : s <> ""%string -> lex s <> [].
Proof.
  destruct s as [|c s]; [easy |]. intros _. unfold lex.
  cbn [String.length lex_loop token_at].
  destruct (CharClass.is_word c).
  { destruct (span _ _). discriminate. }
  destruct (Ascii.eqb dquote c).
  { destruct (close_quote s) as [[a b]|]; [discriminate |].
    destruct (span _ _). discriminate. }
  destruct (CharClass.is_space c); destruct (span _ _); discriminate.
Qed.

Ltac case_option inp :=
  destruct (in_option inp)
    as [|[[[?|?|]|[?|?|]|]|[[?|?|]|[?|?|]|]|]|?].

(** A turn keeps the label of the tree empty, and has a result when it
    is. *)
Lemma menu_case_keeps_label files st inp :
  node_value (m_syntaxTree st) = ""%string ->
  exists st' out,
    menu_case files st inp = Some (st', out) /\
    node_value (m_syntaxTree st') = ""%string.
Proof.
  destruct st as [filename code tokens tree ex]. cbn [m_syntaxTree].
  intros Hv. unfold menu_case. rewrite Hv. cbn [empty negb].
  case_option inp;
    try (eexists; eexists; split; [reflexivity | exact Hv]).
  - destruct tokens; eexists; eexists; (split; [reflexivity |]);
      [exact Hv | apply parse_value].
  - rewrite tokenize_is_lex.
    destruct (negb (empty code)); eexists; eexists;
      (split; [reflexivity | exact Hv]).
  - destruct (files (in_filename inp)); eexists; eexists;
      (split; [reflexivity | exact Hv]).
Qed.

Lemma main_loop_keeps_label files inputs :
  forall st,
    node_value (m_syntaxTree st) = ""%string ->
    exists st' out,
      main_loop files inputs st = Some (st', out) /\
      node_value (m_syntaxTree st') = ""%string.
Proof.
  induction inputs as [|inp inputs IH]; intros st Hv; cbn [main_loop].
  - destruct (m_exit st); eexists; eexists; (split; [reflexivity | exact Hv]).
  - destruct (m_exit st); [eexists; eexists; now split |].
    destruct (menu_case_keeps_label files st inp Hv) as (st1 & out1 & -> & Hv1).
    destruct (IH st1 Hv1) as (st2 & out2 & -> & Hv2).
    eexists; eexists; now split.
Qed.

Lemma menu_case_parse_first files st name :
  node_value (m_syntaxTree st) = ""%string ->
  menu_case files st (mkInput 4 name) = Some (st, parse_first) /\
  menu_case files st (mkInput 5 name) = Some (st, parse_first).
Proof.
  destruct st as [filename code tokens tree ex]. cbn [m_syntaxTree].
  intros Hv. unfold menu_case. cbn [in_option]. now rewrite Hv.
Qed.

(** X15. From the start of [main], whatever the inputs and the files, every
    turn of the menu has a result, and the tree that the menu holds always
    has an empty label, as every root built by [parse]. So options 4 and 5
    always answer [Parse the code first.] and change nothing: the menu
    never calls [checkSemantics] nor [generateCode]. *)
Theorem menu_never_checks_nor_generates
        (files : string -> option string) (inputs : list menu_input) :
  exists st out,
    main_loop files inputs initial_state = Some (st, out) /\
    node_value (m_syntaxTree st) = ""%string /\
    forall name,
      menu_case files st (mkInput 4 name) = Some (st, parse_first) /\
      menu_case files st (mkInput 5 name) = Some (st, parse_first).
Proof.
  destruct (main_loop_keeps_label files inputs initial_state eq_refl)
    as (st & out & Hm & Hv).
  exists st, out. split; [exact Hm |]. split; [exact Hv |].
  intros name. now apply menu_case_parse_first.
Qed.

(** X16. After option 1 has loaded a file with some content, option 2
    stores the tokens of the content, of which there is at least one, and
    option 3 then stores and prints their tree. After an empty file has
    been loaded, option 2 answers [Load a file first.] as if no file had
    been loaded. *)
Theorem menu_load_tokenize_parse
        (files : string -> option string) (st : menu_state)
        (name n2 n3 : string) (content : string) :
  m_exit st = false ->
  files name = Some content ->
  (content <> ""%string ->
   lex content <> [] /\
   main_loop files [mkInput 1 name; mkInput 2 n2; mkInput 3 n3] st =
   Some (mkMenu name content (lex content) (parse (lex content)) false,
         menu_text
           ++ [(Cout, "Enter filename: "); (Cout, "File loaded." ++ nl)]%string
           ++ menu_text ++ [(Cout, printTokens (lex content))]
           ++ menu_text ++ [(Cout, printTree (parse (lex content)) 0)]
           ++ menu_text)) /\
  (content = ""%string ->
   main_loop files [mkInput 1 name; mkInput 2 n2] st =
   Some (mkMenu name "" (m_tokens st) (m_syntaxTree st) false,
         menu_text
           ++ [(Cout, "Enter filename: "); (Cout, "File loaded." ++ nl)]%string
           ++ menu_text ++ [(Cerr, "Load a file first." ++ nl)%string]
           ++ menu_text)).
Proof.
  destruct st as [filename code tokens tree ex]. cbn [m_exit m_tokens m_syntaxTree].
  intros -> Hf. split.
  - intros Hne. pose proof (lex_not_nil Hne) as Hl. split; [exact Hl |].
    cbn [main_loop m_exit]. unfold menu_case at 1. cbn [in_option in_filename].
    rewrite Hf. cbn [m_exit]. unfold menu_case at 1. cbn [in_option].
    destruct content as [|c s]; [easy |]. cbn [empty negb].
    rewrite tokenize_is_lex. cbn [m_exit]. unfold menu_case at 1.
    cbn [in_option]. destruct (lex (String c s)) as [|t ts]; [easy |].
    reflexivity.
  - intros ->. cbn [main_loop m_exit]. unfold menu_case at 1.
    cbn [in_option in_filename]. rewrite Hf. reflexivity.
Qed.

Lemma menu_load_tokenize_parse_witness :
  let files := fun _ : string => Some "def f"%string in
  m_exit initial_state = false /\
  files "a.py"%string = Some "def f"%string /\
  exists st out,
    main_loop files [mkInput 1 "a.py"; mkInput 2 ""; mkInput 3 ""]
              initial_state = Some (st, out) /\
    m_syntaxTree st =
    mkNode "" [mkNode "def" [mkNode " " []; mkNode "f" []]].
Proof.
  split; [reflexivity |]. split; [reflexivity |].
  destruct (@menu_load_tokenize_parse (fun _ => Some "def f"%string)
              initial_state "a.py" "" "" "def f" eq_refl eq_refl)
    as [H _].
  destruct (H ltac:(discriminate)) as [_ E].
  eexists. eexists. split; [exact E | reflexivity].
Defined.


(** * The texts of the tokens *)

Lemma span_fst_all (f : ascii -> bool) (s : string) :
  all_in f (fst (span f s)) = true.
Proof.
  unfold all_in. induction s as [|c s IH]; [reflexivity |]. cbn [span].
  destruct (f c) eqn:Hc; [| reflexivity].
  destruct (span f s) as [a b]. cbn in *. now rewrite Hc.
Qed.

Lemma close_quote_shape :
  forall s a b,
    close_quote s = Some (a, b) ->
    exists body,
      a = (body ++ String dquote "")%string /\ all_in plain_char body = true.
Proof.
  induction s as [|c s IH]; intros a b E; [discriminate |].
  cbn [close_quote] in E. destruct (Ascii.eqb dquote c) eqn:Eq.
  - injection E as <- <-. apply eqb_dquote in Eq. subst c.
    now exists ""%string.
  - destruct (CharClass.is_any c) eqn:Ha; [| discriminate].
    destruct (close_quote s) as [[a0 b0]|]; [| discriminate].
    injection E as <- <-.
    destruct (IH a0 b0 eq_refl) as (body & -> & Hb).
    exists (String c body). split; [reflexivity |].
    unfold all_in in *. cbn [list_ascii_of_string forallb].
    rewrite Hb. unfold plain_char. now rewrite Ha, Eq.
Qed.

Lemma ends_quote_close :
  forall a r, ends_quote a = true -> close_quote (a ++ r) <> None.
Proof.
  induction a as [|c a IH]; intros r H; [discriminate |].
  cbn [ends_quote] in H. cbn [append close_quote].
  destruct (Ascii.eqb dquote c); [discriminate |]. cbn [andb orb] in H.
  apply andb_prop in H. destruct H as [-> H].
  specialize (IH r H). now destruct (close_quote (a ++ r)) as [[a0 b0]|].
Qed.

Lemma shape_quoted body :
  all_in plain_char body = true ->
  ends_quote (body ++ String dquote "") = true.
Proof.
  unfold all_in. induction body as [|c body IH]; [reflexivity |].
  cbn [list_ascii_of_string forallb append ends_quote]. intros H.
  apply andb_prop in H. destruct H as [Hc H]. unfold plain_char in Hc.
  apply andb_prop in Hc. destruct Hc as [-> _]. rewrite (IH H).
  cbn. apply orb_true_r.
Qed.

(** The four kinds of token. *)
Lemma token_at_kind s a r :
  token_at s = Some (a, r) ->
  all_in CharClass.is_word a = true \/
  all_in CharClass.is_space a = true \/
  (all_in CharClass.is_punct a = true /\ quoted a = false) \/
  (exists body,
      a = String dquote (body ++ String dquote "") /\
      all_in plain_char body = true).
Proof.
  assert (Hfst : forall f x, Some (span f x) = Some (a, r) ->
                             a = fst (span f x))
    by (intros f x E; apply (f_equal (option_map fst)) in E;
        cbn [option_map fst] in E; congruence).
  destruct s as [|c s]; [discriminate |]. cbn [token_at].
  destruct (CharClass.is_word c) eqn:Hw.
  { intros E. left. rewrite (Hfst _ _ E). apply span_fst_all. }
  destruct (Ascii.eqb dquote c) eqn:Eq.
  { apply eqb_dquote in Eq. subst c.
    destruct (close_quote s) as [[a0 b0]|] eqn:Ec.
    - intros [= <- <-]. right. right. right.
      destruct (close_quote_shape _ Ec) as (body & -> & Hb). now exists body.
    - intros E. right. right. left.
      rewrite (Hfst _ _ E). split; [apply span_fst_all |].
      cbn [span]. rewrite (proj1 (proj2 (proj2 dquote_classes))).
      pose proof (span_app CharClass.is_punct s) as Hs.
      destruct (span CharClass.is_punct s) as [a1 b1]. cbn [fst snd] in *.
      cbn [quoted]. destruct (ends_quote a1) eqn:He; [| apply andb_false_r].
      exfalso. apply (ends_quote_close a1 b1 He). now rewrite Hs. }
  destruct (CharClass.is_space c) eqn:Hs.
  { intros E. right. left. rewrite (Hfst _ _ E). apply span_fst_all. }
  intros E. right. right. left.
  rewrite (Hfst _ _ E). split; [apply span_fst_all |].
  cbn [span]. unfold CharClass.is_punct at 1. rewrite Hw, Hs. cbn [orb negb].
  destruct (span CharClass.is_punct s). cbn [fst quoted]. now rewrite Eq.
Qed.

Lemma token_fits s a r :
  token_at s = Some (a, r) -> text_fits_type (mkToken (classify_direct a) a).
Proof.
  intros E. destruct (token_at_split _ E) as [_ He].
  unfold text_fits_type. cbn [tok_value tok_type]. unfold classify_direct.
  destruct (String.eqb_spec a "def"); [subst; reflexivity |].
  destruct (String.eqb_spec a "print"); [subst; reflexivity |].
  cbn [orb]. rewrite He. cbn [negb andb].
  destruct (all_in CharClass.is_word a) eqn:Hw; [reflexivity |].
  destruct (token_at_kind _ E) as [H | [H | [[H Hq] | (body & -> & Hb)]]].
  - congruence.
  - rewrite H. destruct (quoted a) eqn:Hq; [| reflexivity].
    exfalso. destruct a as [|c a]; [discriminate |]. cbn in Hq.
    apply andb_prop in Hq. destruct Hq as [Hq _]. apply eqb_dquote in Hq.
    subst c. discriminate.
  - rewrite Hq. destruct (all_in CharClass.is_space a); [| exact H].
    reflexivity.
  - cbn [quoted]. rewrite (shape_quoted _ Hb). cbn. now exists body.
Qed.

Lemma lex_loop_fits n :
  forall s, Forall text_fits_type (lex_loop n s).
Proof.
  induction n as [|n IH]; intros s; cbn [lex_loop]; [constructor |].
  destruct (token_at s) as [[a r]|] eqn:E; [| constructor].
  constructor; [exact (token_fits _ E) | apply IH].
Qed.

(** X17. The text of every token of [tokenize] fits its type: word
    characters only for KEYWORD and IDENTIFIER, white space only for
    WHITESPACE, characters that are neither for OPERATOR, and for STRING a
    double quote, a text without double quote and without line terminator,
    and a double quote. No token has the type NUMBER or UNKNOWN. *)
Theorem tokenize_texts_fit_types (code : string) :
  exists tokens,
    tokenize code = Some tokens /\ Forall text_fits_type tokens.
Proof.
  exists (lex code). split; [apply tokenize_is_lex | apply lex_loop_fits].
Qed.
